(** * Sitemap generator: URL normalisation, parsing and reconciliation

    A shallow embedding of [src/app.py].  The script reads an uploaded
    [sitemap.xml], drops the excluded URLs, optionally removes repeated
    locations, appends the URLs to add with one common [lastmod] date and
    emits a fresh sitemap together with a report of the rejected additions.

    Python [str] values are modelled as Rocq strings, one [ascii] per code
    point, so the model covers the code points below 256; [str.isspace] and
    [str.lower] are written out for that range.  Python sets of strings are
    [gset string]; the lists of the script are lists, grown at their end by
    [append] as in the source. *)

From Stdlib Require Import Ascii String List Bool Arith Lia.
From stdpp Require Import base decidable list strings gmap sorting.
Import ListNotations.

#[local] Set Warnings "-clear-no-such-hyp,-register-all".

Local Open Scope string_scope.
Local Open Scope nat_scope.
Local Open Scope list_scope.

(** ** Python string primitives *)

Module PyStr.

(** [str.isspace] on one code point: TAB..CR, FS..US, space, NEL, NBSP. *)
Definition isspace (c : ascii) : bool :=
  let n := nat_of_ascii c in
  ((9 <=? n) && (n <=? 13)) || ((28 <=? n) && (n <=? 32))
  || (n =? 133) || (n =? 160).

(** [str.lower] on one code point: A..Z and the Latin-1 capitals
    (U+00C0..U+00DE without the multiplication sign U+00D7) move up by 32. *)
Definition lower_char (c : ascii) : ascii :=
  let n := nat_of_ascii c in
  if ((65 <=? n) && (n <=? 90))
     || ((192 <=? n) && (n <=? 222) && negb (n =? 215))
  then ascii_of_nat (n + 32) else c.

(** [s.lower()], code point by code point.  That it keeps the length is a
    fact of this range only: further up [str.lower] turns U+0130 into two
    code points. *)
Fixpoint lower (s : string) : string :=
  match s with
  | EmptyString => EmptyString
  | String c r => String (lower_char c) (lower r)
  end.

Fixpoint lstrip (s : string) : string :=
  match s with
  | EmptyString => EmptyString
  | String c r => if isspace c then lstrip r else s
  end.

Fixpoint rstrip (s : string) : string :=
  match s with
  | EmptyString => EmptyString
  | String c r =>
      match rstrip r with
      | EmptyString => if isspace c then EmptyString else String c EmptyString
      | r' => String c r'
      end
  end.

(** [s.strip()]: whitespace removed at both ends. *)
Definition strip (s : string) : string := rstrip (lstrip s).

(** The last character, if any. *)
Fixpoint last_char (s : string) : option ascii :=
  match s with
  | EmptyString => None
  | String c EmptyString => Some c
  | String _ r => last_char r
  end.

(** Does the string begin, or end, with whitespace? *)
Definition starts_space (s : string) : bool :=
  match s with String c _ => isspace c | EmptyString => false end.

Definition ends_space (s : string) : bool :=
  match last_char s with Some c => isspace c | None => false end.

(** [s.endswith(c)] for a one-character [c]. *)
Definition endswith_char (s : string) (c : ascii) : bool :=
  match last_char s with
  | Some d => Ascii.eqb d c
  | None => false
  end.

(** [sub in s]: some suffix of [s] starts with [sub]. *)
Fixpoint contains (sub s : string) : bool :=
  String.prefix sub s
  || match s with
     | EmptyString => false
     | String _ r => contains sub r
     end.

(** [s.count(c)] for a one-character [c]: the number of code points equal
    to [c]. *)
Fixpoint count_char (c : ascii) (s : string) : nat :=
  match s with
  | EmptyString => 0
  | String d r => (if Ascii.eqb d c then 1 else 0) + count_char c r
  end.

(** [s[:-1]]: all but the last character (empty stays empty). *)
Fixpoint drop_last (s : string) : string :=
  match s with
  | EmptyString => EmptyString
  | String _ EmptyString => EmptyString
  | String c r => String c (drop_last r)
  end.

(** [s.split("\n")]: the pieces between line feeds; never an empty list. *)
Fixpoint split_lines (s : string) : list string :=
  match s with
  | EmptyString => [EmptyString]
  | String c r =>
      if Ascii.eqb c "010"%char then EmptyString :: split_lines r
      else match split_lines r with
           | [] => [String c EmptyString]
           | l :: ls => String c l :: ls
           end
  end.

(** Truthiness of a string: [bool(s)], false exactly for the empty one. *)
Definition truthy (s : string) : bool :=
  match s with EmptyString => false | _ => true end.

End PyStr.

(** ** Configuration (the widgets of the page) *)

Inductive Encoding := Utf8 | Utf16 | Iso8859_1.

Inductive Changefreq :=
  Always | Hourly | Daily | Weekly | Monthly | Yearly | Never.

(** [priority_text] is the priority as the f-string [{priority:.1f}] renders
    it; the float itself and its formatting stay outside the embedding. *)
Record Config := {
  encoding : Encoding;
  changefreq : Changefreq;
  priority_text : string;
  normalize_trailing_slash : bool;
  lower_case_urls : bool;
  dedupe_existing : bool
}.

(** The defaults of the widgets. *)
Definition default_config : Config :=
  {| encoding := Utf8; changefreq := Monthly; priority_text := "1.0";
     normalize_trailing_slash := false; lower_case_urls := false;
     dedupe_existing := true |}.

(** ** Helper functions *)

Definition normalize_url (cfg : Config) (u : string) : string :=
  let u := PyStr.strip u in
  let u := if lower_case_urls cfg then PyStr.lower u else u in
  if normalize_trailing_slash cfg && (1 <? String.length u) then
    if PyStr.endswith_char u "/"
       && PyStr.contains "://" u
       && (2 <? PyStr.count_char "/" u)
    then PyStr.drop_last u
    else u
  else u.

(** The stages of [normalize_url] after the strip, named for the proofs. *)
Definition lower_stage (cfg : Config) (u : string) : string :=
  if lower_case_urls cfg then PyStr.lower u else u.

Definition must_trim (cfg : Config) (u : string) : bool :=
  normalize_trailing_slash cfg && (1 <? String.length u)
  && (PyStr.endswith_char u "/" && PyStr.contains "://" u
      && (2 <? PyStr.count_char "/" u)).

Definition trim_stage (cfg : Config) (u : string) : string :=
  if must_trim cfg u then PyStr.drop_last u else u.

Definition clean_lines (cfg : Config) (raw : string) : list string :=
  if negb (PyStr.truthy raw) then []
  else
    normalize_url cfg
      <$> filter (fun line => PyStr.truthy (PyStr.strip line) = true)
                 (PyStr.split_lines (PyStr.strip raw)).

(** ** The uploaded document

    [xml.etree.ElementTree] is a library: the model starts from the element
    tree it builds.  An element has a tag (with the namespace in braces, as
    ElementTree expands it), attributes, an optional text and its children in
    document order. *)

Inductive Element : Type :=
  mkElement (tag : string) (attrib : list (string * string))
            (text : option string) (children : list Element).

Definition tag (e : Element) : string :=
  match e with mkElement t _ _ _ => t end.
Definition text (e : Element) : option string :=
  match e with mkElement _ _ x _ => x end.
Definition children (e : Element) : list Element :=
  match e with mkElement _ _ _ c => c end.

(** [e.findall(t)] for a plain tag path: the direct children with that tag. *)
Definition findall (e : Element) (t : string) : list Element :=
  filter (fun c => tag c = t) (children e).

(** [e.find(t)]: the first such child, or [None]. *)
Definition find (e : Element) (t : string) : option Element :=
  head (findall e t).

Definition ns : string := "http://www.sitemaps.org/schemas/sitemap/0.9".
Definition ns_tag (name : string) : string := "{" +:+ ns +:+ "}" +:+ name.

(** What [ET.parse(uploaded_file)] does with an uploaded file: it returns a
    tree, raises [ET.ParseError], or raises some other exception. *)
Inductive UploadedFile :=
  | ParsesTo (root : Element)
  | RaisesParseError (detail : string)
  | RaisesOther (detail : string).

(** ** Collecting the existing URLs (lines 132-156) *)

Definition Entry : Type := string * option string.

Record ParseState := {
  existing_urls : list Entry;
  seen : gset string
}.

(** [lastmod_elem.text.strip() if lastmod_elem is not None and
    lastmod_elem.text else None] *)
Definition lastmod_of (url_elem : Element) : option string :=
  match find url_elem (ns_tag "lastmod") with
  | Some lastmod_elem =>
      match text lastmod_elem with
      | Some t => if PyStr.truthy t then Some (PyStr.strip t) else None
      | None => None
      end
  | None => None
  end.

(** One turn of the loop over [root.findall('ns:url', ns)]; every [continue]
    returns the state as it is. *)
Definition collect_step (cfg : Config) (exclude_urls : gset string)
    (st : ParseState) (url_elem : Element) : ParseState :=
  match find url_elem (ns_tag "loc") with
  | None => st
  | Some loc_elem =>
      match text loc_elem with
      | None => st
      | Some t =>
          if negb (PyStr.truthy t) then st
          else
            let loc_text := normalize_url cfg t in
            if bool_decide (loc_text ∈ exclude_urls) then st
            else
              let lastmod := lastmod_of url_elem in
              if dedupe_existing cfg then
                if bool_decide (loc_text ∈ seen st) then st
                else {| existing_urls := existing_urls st ++ [(loc_text, lastmod)];
                        seen := {[loc_text]} ∪ seen st |}
              else {| existing_urls := existing_urls st ++ [(loc_text, lastmod)];
                      seen := seen st |}
      end
  end.

Definition parse_init : ParseState := {| existing_urls := []; seen := ∅ |}.

Definition collect_existing (cfg : Config) (exclude_urls : gset string)
    (root : Element) : ParseState :=
  fold_left (collect_step cfg exclude_urls) (findall root (ns_tag "url"))
            parse_init.

(** The entry a [url] element stands for, when its [loc] has a text: the
    first lines of the loop body, up to the exclusion test. *)
Definition candidate (cfg : Config) (url_elem : Element) : option Entry :=
  match find url_elem (ns_tag "loc") with
  | Some loc_elem =>
      match text loc_elem with
      | Some t =>
          if PyStr.truthy t then Some (normalize_url cfg t, lastmod_of url_elem)
          else None
      | None => None
      end
  | None => None
  end.

(** The end of the loop body, from the [dedupe_existing] test on. *)
Definition keep_step (cfg : Config) (st : ParseState) (e : Entry) : ParseState :=
  if dedupe_existing cfg then
    if bool_decide (e.1 ∈ seen st) then st
    else {| existing_urls := existing_urls st ++ [e];
            seen := {[e.1]} ∪ seen st |}
  else {| existing_urls := existing_urls st ++ [e]; seen := seen st |}.

(** The candidates of the document that the exclusion set lets through, in
    document order. *)
Definition survivors (cfg : Config) (exclude_urls : gset string)
    (root : Element) : list Entry :=
  filter (fun e => e.1 ∉ exclude_urls)
         (omap (candidate cfg) (findall root (ns_tag "url"))).

(** The state of the loop once the surviving candidates [l] went through. *)
Definition collected (cfg : Config) (l : list Entry) : ParseState :=
  fold_left (keep_step cfg) l parse_init.

(** [e] stands in [l] at a place before which its location does not occur. *)
Definition first_occurrence (e : Entry) (l : list Entry) : Prop :=
  ∃ pre post, l = pre ++ e :: post ∧ e.1 ∉ pre.*1.

(** ** Handling the additions (lines 158-173) *)

Record MergeState := {
  final_urls : list Entry;
  duplicates : list string;
  new_seen : gset string
}.

(** An added entry: the URL with the date picked for this run. *)
Definition added (add_lastmod_str : string) (new_url : string) : Entry :=
  (new_url, Some add_lastmod_str).

Definition add_step (existing_set : gset string) (add_lastmod_str : string)
    (st : MergeState) (new_url : string) : MergeState :=
  if negb (PyStr.truthy new_url) then st
  else if bool_decide (new_url ∈ existing_set)
          || bool_decide (new_url ∈ new_seen st)
  then {| final_urls := final_urls st;
          duplicates := duplicates st ++ [new_url];
          new_seen := new_seen st |}
  else {| final_urls := final_urls st ++ [added add_lastmod_str new_url];
          duplicates := duplicates st;
          new_seen := {[new_url]} ∪ new_seen st |}.

Definition reconcile (existing : list Entry) (add_urls : list string)
    (add_lastmod_str : string) : MergeState :=
  let existing_set : gset string := list_to_set existing.*1 in
  fold_left (add_step existing_set add_lastmod_str) add_urls
            {| final_urls := existing; duplicates := []; new_seen := ∅ |}.

(** The reconciler as section 4.3 of the specification words it, for
    comparison with the loop above.  [accepted] holds what this pass took so
    far; the result is the list of accepted additions and the list of
    rejected ones, both in input order.  An addition is rejected when its
    location is an existing one or was accepted earlier in the pass, and is
    accepted otherwise. *)
Fixpoint reconcile_spec (existing_locs accepted adds : list string)
    : list string * list string :=
  match adds with
  | [] => ([], [])
  | u :: rest =>
      if bool_decide (u ∈ existing_locs ∨ u ∈ accepted)
      then let '(a, r) := reconcile_spec existing_locs accepted rest in
           (a, u :: r)
      else let '(a, r) := reconcile_spec existing_locs (accepted ++ [u]) rest in
           (u :: a, r)
  end.

Definition nonempty (u : string) : Prop := u ≠ EmptyString.

Global Instance nonempty_dec u : Decision (nonempty u).
Proof. unfold nonempty. apply _. Defined.

(** ** The new sitemap (lines 175-183) *)

Definition changefreq_text (c : Changefreq) : string :=
  match c with
  | Always => "always" | Hourly => "hourly" | Daily => "daily"
  | Weekly => "weekly" | Monthly => "monthly" | Yearly => "yearly"
  | Never => "never"
  end.

Definition leaf (name value : string) : Element :=
  mkElement name [] (Some value) [].

Definition url_element (cfg : Config) (e : Entry) : Element :=
  let (loc, lastmod) := e in
  mkElement "url" [] None
    ([leaf "loc" loc]
     ++ match lastmod with
        | Some d => if PyStr.truthy d then [leaf "lastmod" d] else []
        | None => []
        end
     ++ [leaf "changefreq" (changefreq_text (changefreq cfg));
         leaf "priority" (priority_text cfg)]).

Definition new_root (cfg : Config) (final : list Entry) : Element :=
  mkElement "urlset" [("xmlns", ns)] None (url_element cfg <$> final).

(** ** The button handler (lines 114-216)

    The page is described by the Streamlit calls the handler makes, in order.
    The expander with the sorted distinct duplicates is display only and is
    left out. *)

Inductive UiEvent :=
  | StWarningNoUpload
  | StErrorParse
  | StErrorUnexpected
  | StException (detail : string)
  | StSuccess
  | StTotal (n : nat)
  | StWarningDuplicates (n : nat)
  | StPreview (rows : list Entry)
  | StDownload (enc : Encoding) (document : Element).

Record Inputs := {
  uploaded_file : option UploadedFile;
  exclude_input : string;
  add_input : string;
  add_lastmod_str : string
}.

(** The body of the [try] once the tree is there. *)
Definition pipeline (cfg : Config) (root : Element)
    (exclude_input add_input add_lastmod_str : string) : MergeState :=
  let exclude_urls : gset string := list_to_set (clean_lines cfg exclude_input) in
  let add_urls := clean_lines cfg add_input in
  let parsed := collect_existing cfg exclude_urls root in
  reconcile (existing_urls parsed) add_urls add_lastmod_str.

Definition report (cfg : Config) (r : MergeState) : list UiEvent :=
  [StSuccess; StTotal (length (final_urls r))]
  ++ (match duplicates r with
      | [] => []
      | _ => [StWarningDuplicates (length (duplicates r))]
      end)
  ++ [StPreview (final_urls r);
      StDownload (encoding cfg) (new_root cfg (final_urls r))].

Definition generate (cfg : Config) (i : Inputs) : list UiEvent :=
  match uploaded_file i with
  | None => [StWarningNoUpload]
  | Some (RaisesParseError e) => [StErrorParse; StException e]
  | Some (RaisesOther e) => [StErrorUnexpected; StException e]
  | Some (ParsesTo root) =>
      report cfg (pipeline cfg root (exclude_input i) (add_input i)
                           (add_lastmod_str i))
  end.

(** ** Sample documents *)

Definition url_elem (loc : string) (lastmod : option string) : Element :=
  mkElement (ns_tag "url") [] None
    (mkElement (ns_tag "loc") [] (Some loc) []
     :: match lastmod with
        | Some d => [mkElement (ns_tag "lastmod") [] (Some d) []]
        | None => []
        end).

Definition urlset (urls : list Element) : Element :=
  mkElement (ns_tag "urlset") [] None urls.

Definition with_trim (cfg : Config) : Config :=
  {| encoding := encoding cfg; changefreq := changefreq cfg;
     priority_text := priority_text cfg;
     normalize_trailing_slash := true;
     lower_case_urls := lower_case_urls cfg;
     dedupe_existing := dedupe_existing cfg |}.

Definition without_dedupe (cfg : Config) : Config :=
  {| encoding := encoding cfg; changefreq := changefreq cfg;
     priority_text := priority_text cfg;
     normalize_trailing_slash := normalize_trailing_slash cfg;
     lower_case_urls := lower_case_urls cfg;
     dedupe_existing := false |}.

(** The same location twice, with different dates. *)
Definition twice_x : Element :=
  urlset [url_elem "https://ex.com/x" (Some "2024-01-01");
          url_elem "https://ex.com/x" (Some "2024-02-02")].


Definition blank_loc : Element :=
  urlset [url_elem "   " None].



Definition scenario_A : Element :=
  urlset [url_elem "https://ex.com/a" (Some "2024-01-01");
          url_elem "https://ex.com/b" None].

(** ** Further definitions *)

(** The configuration with the lowercase option set to [b]. *)
Definition with_lowercase (b : bool) (cfg : Config) : Config :=
  {| encoding := encoding cfg; changefreq := changefreq cfg;
     priority_text := priority_text cfg;
     normalize_trailing_slash := normalize_trailing_slash cfg;
     lower_case_urls := b;
     dedupe_existing := dedupe_existing cfg |}.

(** [l.count(u)] *)
Definition occurrences (u : string) (l : list string) : nat :=
  length (filter (fun v => v = u) l).

(** [sorted(set(duplicates))] (line 196): the rows of the table in the
    expander.  [str] compares by code points, as [String.le] does. *)
Definition duplicate_table (duplicates : list string) : list string :=
  merge_sort String.le (elements (list_to_set duplicates : gset string)).

(** Reading a [url] element of the new tree: the texts of its [loc] and
    [lastmod] children. *)
Definition read_url (el : Element) : option string * option string :=
  (find el "loc" ≫= text, find el "lastmod" ≫= text).

(** The lastmod the new document shows for an entry: [if lastmod:] leaves out
    a missing and an empty one. *)
Definition written_lastmod (e : Entry) : option string :=
  match e.2 with
  | Some d => if PyStr.truthy d then Some d else None
  | None => None
  end.

(** The inputs of a run whose upload parses to [root]. *)
Definition parsed_inputs (root : Element)
    (exclude_input add_input add_lastmod_str : string) : Inputs :=
  {| uploaded_file := Some (ParsesTo root); exclude_input := exclude_input;
     add_input := add_input; add_lastmod_str := add_lastmod_str |}.

(** The same document written without the namespace. *)
Definition plain_sitemap : Element :=
  mkElement "urlset" [] None
    [mkElement "url" [] None [mkElement "loc" [] (Some "https://ex.com/a") []]].

(** The lines of a text, stripped, without the blank ones. *)
Definition stripped_lines (raw : string) : list string :=
  filter nonempty (PyStr.strip <$> PyStr.split_lines raw).

(** * Properties *)

(** ** Strings *)

Module PyStrFacts.
Import PyStr.

Ltac each_char c :=
  destruct c as [[] [] [] [] [] [] [] []]; vm_compute; try reflexivity.

Lemma lower_char_idem c : lower_char (lower_char c) = lower_char c.
Proof. each_char c. Qed.

Lemma isspace_lower_char c : isspace (lower_char c) = isspace c.
Proof. each_char c. Qed.

Lemma lower_idem s : lower (lower s) = lower s.
Proof. induction s as [|c r IH]; simpl; [|rewrite lower_char_idem, IH]; reflexivity. Qed.

Lemma lower_length s : String.length (lower s) = String.length s.
Proof. induction s; simpl; congruence. Qed.

Lemma last_char_cons c d r :
  last_char (String c (String d r)) = last_char (String d r).
Proof. reflexivity. Qed.

Lemma last_char_lower s : last_char (lower s) = lower_char <$> last_char s.
Proof.
  induction s as [|c [|d r] IH]; try reflexivity.
  change (lower (String c (String d r)))
    with (String (lower_char c) (lower (String d r))).
  change (lower (String d r)) with (String (lower_char d) (lower r)) in *.
  rewrite !last_char_cons. exact IH.
Qed.

Lemma drop_last_lower s : drop_last (lower s) = lower (drop_last s).
Proof.
  induction s as [|c [|d r] IH]; try reflexivity.
  change (lower (String c (String d r)))
    with (String (lower_char c) (String (lower_char d) (lower r))).
  change (drop_last (String c (String d r)))
    with (String c (drop_last (String d r))).
  change (drop_last (String (lower_char c) (String (lower_char d) (lower r))))
    with (String (lower_char c) (drop_last (lower (String d r)))).
  rewrite IH. reflexivity.
Qed.

Lemma starts_space_lower s : starts_space (lower s) = starts_space s.
Proof. destruct s; simpl; [reflexivity | apply isspace_lower_char]. Qed.

Lemma ends_space_lower s : ends_space (lower s) = ends_space s.
Proof.
  unfold ends_space. rewrite last_char_lower.
  destruct (last_char s); simpl; [apply isspace_lower_char | reflexivity].
Qed.

Lemma lstrip_fix s : starts_space s = false → lstrip s = s.
Proof. destruct s; simpl; [reflexivity | intros ->; reflexivity]. Qed.

Lemma rstrip_fix s : ends_space s = false → rstrip s = s.
Proof.
  unfold ends_space.
  induction s as [|c [|d r] IH]; intros H; [reflexivity | |].
  - simpl in *. rewrite H. reflexivity.
  - rewrite last_char_cons in H. specialize (IH H).
    change (rstrip (String c (String d r)))
      with (match rstrip (String d r) with
            | EmptyString => if isspace c then EmptyString else String c EmptyString
            | r' => String c r'
            end).
    rewrite IH. reflexivity.
Qed.

Lemma lstrip_clean s : starts_space (lstrip s) = false.
Proof.
  induction s as [|c r IH]; simpl; [reflexivity|].
  destruct (isspace c) eqn:E; [exact IH | simpl; exact E].
Qed.

Lemma rstrip_clean s : ends_space (rstrip s) = false.
Proof.
  unfold ends_space.
  induction s as [|c r IH]; simpl; [reflexivity|].
  destruct (rstrip r) as [|d r'] eqn:E.
  - destruct (isspace c) eqn:Ec; simpl; [reflexivity | exact Ec].
  - rewrite last_char_cons. exact IH.
Qed.

Lemma rstrip_keeps_start s :
  starts_space s = false → starts_space (rstrip s) = false.
Proof.
  destruct s as [|c r]; simpl; [reflexivity|]. intros H.
  destruct (rstrip r); [rewrite H|]; simpl; exact H.
Qed.

Lemma strip_fix s :
  starts_space s = false → ends_space s = false → strip s = s.
Proof.
  intros H1 H2. unfold strip. rewrite (lstrip_fix _ H1). apply rstrip_fix, H2.
Qed.

Lemma strip_clean s :
  starts_space (strip s) = false ∧ ends_space (strip s) = false.
Proof.
  unfold strip. split; [apply rstrip_keeps_start, lstrip_clean | apply rstrip_clean].
Qed.

Lemma strip_idem s : strip (strip s) = strip s.
Proof. destruct (strip_clean s). apply strip_fix; assumption. Qed.

Lemma starts_space_drop_last s :
  1 < String.length s → starts_space (drop_last s) = starts_space s.
Proof. destruct s as [|c [|d r]]; simpl; intros; [lia | lia | reflexivity]. Qed.

Lemma drop_last_nonempty s : 1 < String.length s → drop_last s ≠ EmptyString.
Proof. destruct s as [|c [|d r]]; simpl; intros; [lia | lia | discriminate]. Qed.

Lemma lower_nonempty s : s ≠ EmptyString → lower s ≠ EmptyString.
Proof. destruct s; simpl; [congruence | discriminate]. Qed.

Lemma truthy_true s : truthy s = true ↔ s ≠ EmptyString.
Proof. destruct s; simpl; split; congruence. Qed.

Lemma truthy_false s : truthy s = false ↔ s = EmptyString.
Proof. destruct s; simpl; split; congruence. Qed.

Lemma endswith_char_spec s c :
  endswith_char s c = true ↔ last_char s = Some c.
Proof.
  unfold endswith_char. destruct (last_char s) as [d|]; [|split; discriminate].
  rewrite Ascii.eqb_eq. split; congruence.
Qed.

(** Concatenation, for URLs given by their parts. *)

Lemma str_app_cons c s t : String c s +:+ t = String c (s +:+ t).
Proof. reflexivity. Qed.

Lemma str_app_assoc s t u : (s +:+ t) +:+ u = s +:+ (t +:+ u).
Proof. induction s as [|c s IH]; [reflexivity|]. rewrite !str_app_cons. by rewrite IH. Qed.

Lemma str_length_app s t :
  String.length (s +:+ t) = String.length s + String.length t.
Proof. induction s as [|c s IH]; [reflexivity|]. rewrite str_app_cons. simpl. by rewrite IH. Qed.

Lemma last_char_snoc s c : last_char (s +:+ String c EmptyString) = Some c.
Proof.
  induction s as [|d [|e r] IH]; try reflexivity.
  rewrite str_app_cons. rewrite str_app_cons in IH |- *. by rewrite last_char_cons.
Qed.

Lemma drop_last_snoc s c : drop_last (s +:+ String c EmptyString) = s.
Proof.
  induction s as [|d [|e r] IH]; try reflexivity.
  rewrite str_app_cons. rewrite str_app_cons in IH |- *.
  change (drop_last (String d (String e (r +:+ String c EmptyString))))
    with (String d (drop_last (String e (r +:+ String c EmptyString)))).
  by rewrite IH.
Qed.

Lemma count_char_app c s t :
  count_char c (s +:+ t) = count_char c s + count_char c t.
Proof.
  induction s as [|d s IH]; [reflexivity|].
  rewrite str_app_cons. simpl. rewrite IH. lia.
Qed.

Lemma prefix_app sub t : String.prefix sub (sub +:+ t) = true.
Proof.
  induction sub as [|c sub IH]; [by destruct t|].
  rewrite str_app_cons. simpl. by destruct (ascii_dec c c).
Qed.

Lemma contains_unfold sub s :
  contains sub s
  = String.prefix sub s
    || match s with
       | EmptyString => false
       | String _ r => contains sub r
       end.
Proof. by destruct s. Qed.

Lemma contains_app sub s t : contains sub (s +:+ sub +:+ t) = true.
Proof.
  induction s as [|c s IH]; rewrite contains_unfold.
  - change (EmptyString +:+ sub +:+ t) with (sub +:+ t).
    by rewrite prefix_app.
  - rewrite str_app_cons, IH. apply orb_true_r.
Qed.

End PyStrFacts.

(** The primitives on small inputs. *)

Example strip_example : PyStr.strip "  https://ex.com/a b
 " = "https://ex.com/a b".
Proof. reflexivity. Qed.

Example lower_example : PyStr.lower "HTTPS://Ex.com/A?q=Z" = "https://ex.com/a?q=z".
Proof. reflexivity. Qed.

Example split_lines_example :
  PyStr.split_lines "a

b
" = ["a"; ""; "b"; ""].
Proof. reflexivity. Qed.

Example clean_lines_example :
  clean_lines default_config "
  https://ex.com/a

https://ex.com/b/
" = ["https://ex.com/a"; "https://ex.com/b/"].
Proof. reflexivity. Qed.

(** ** URL normalisation *)

Section Normalize.
Import PyStr PyStrFacts.

Variable cfg : Config.

Lemma normalize_url_stages u :
  normalize_url cfg u = trim_stage cfg (lower_stage cfg (strip u)).
Proof.
  unfold normalize_url, trim_stage, must_trim, lower_stage.
  destruct (normalize_trailing_slash cfg && _); simpl; [|reflexivity].
  destruct (endswith_char _ _ && _ && _); reflexivity.
Qed.

Lemma lower_stage_idem u : lower_stage cfg (lower_stage cfg u) = lower_stage cfg u.
Proof. unfold lower_stage. destruct (lower_case_urls cfg); [apply lower_idem | reflexivity]. Qed.

Lemma lower_stage_drop_last u :
  lower_stage cfg (drop_last u) = drop_last (lower_stage cfg u).
Proof.
  unfold lower_stage. destruct (lower_case_urls cfg);
    [symmetry; apply drop_last_lower | reflexivity].
Qed.

Lemma lower_stage_edges u :
  starts_space (lower_stage cfg u) = starts_space u
  ∧ ends_space (lower_stage cfg u) = ends_space u.
Proof.
  unfold lower_stage. destruct (lower_case_urls cfg);
    [split; [apply starts_space_lower | apply ends_space_lower] | split; reflexivity].
Qed.

Lemma lower_stage_nonempty u : u ≠ EmptyString → lower_stage cfg u ≠ EmptyString.
Proof.
  unfold lower_stage. destruct (lower_case_urls cfg);
    [apply lower_nonempty | trivial].
Qed.

Lemma trim_stage_nonempty u : u ≠ EmptyString → trim_stage cfg u ≠ EmptyString.
Proof.
  unfold trim_stage, must_trim. intros Hu.
  destruct (normalize_trailing_slash cfg); simpl; [|exact Hu].
  destruct (1 <? String.length u) eqn:Hlen; simpl; [|exact Hu].
  destruct (_ && _ && _); [|exact Hu].
  apply drop_last_nonempty, Nat.ltb_lt, Hlen.
Qed.

(** A URL normalises to the empty string exactly when it is blank. *)
Lemma normalize_url_nonempty u :
  strip u ≠ EmptyString → normalize_url cfg u ≠ EmptyString.
Proof.
  intros H. rewrite normalize_url_stages.
  apply trim_stage_nonempty, lower_stage_nonempty, H.
Qed.

Lemma normalize_url_blank u :
  strip u = EmptyString → normalize_url cfg u = EmptyString.
Proof.
  intros H. rewrite normalize_url_stages, H.
  unfold trim_stage, must_trim, lower_stage.
  destruct (lower_case_urls cfg); simpl; rewrite andb_false_r; reflexivity.
Qed.

(** With the option on, every root URL -- a scheme, "://", a host and one
    slash -- loses its slash: the three slashes it has are more than two. *)
Lemma trim_stage_root scheme host :
  normalize_trailing_slash cfg = true →
  trim_stage cfg ((scheme +:+ "://" +:+ host) +:+ "/")
  = scheme +:+ "://" +:+ host.
Proof.
  intros Hon. unfold trim_stage, must_trim. rewrite Hon.
  assert (Hlen : (1 <? String.length ((scheme +:+ "://" +:+ host) +:+ "/"))
                 = true).
  { apply Nat.ltb_lt. rewrite !str_length_app. simpl. lia. }
  assert (Hend : endswith_char ((scheme +:+ "://" +:+ host) +:+ "/") "/" = true).
  { apply endswith_char_spec, last_char_snoc. }
  assert (Hin : contains "://" ((scheme +:+ "://" +:+ host) +:+ "/") = true).
  { rewrite !str_app_assoc. apply contains_app. }
  assert (Hcount : (2 <? count_char "/" ((scheme +:+ "://" +:+ host) +:+ "/"))
                   = true).
  { apply Nat.ltb_lt. rewrite !count_char_app. simpl. lia. }
  rewrite Hlen, Hend, Hin, Hcount. simpl. apply drop_last_snoc.
Qed.

(** After the first two stages the string is stripped and lowered. *)
Lemma staged_fix u :
  let s := lower_stage cfg (strip u) in
  strip s = s ∧ lower_stage cfg s = s ∧ starts_space s = false.
Proof.
  intros s. destruct (strip_clean u) as [H1 H2].
  destruct (lower_stage_edges (strip u)) as [E1 E2].
  split; [|split].
  - apply strip_fix; subst s; congruence.
  - apply lower_stage_idem.
  - subst s; congruence.
Qed.

(** With the trailing-slash option off, nothing is left to do on a second
    pass. *)
Lemma normalize_url_idem_no_trim u :
  normalize_trailing_slash cfg = false →
  normalize_url cfg (normalize_url cfg u) = normalize_url cfg u.
Proof.
  intros Hoff. rewrite !normalize_url_stages.
  destruct (staged_fix u) as (Hs & Hl & _).
  assert (Hid : ∀ v, trim_stage cfg v = v).
  { intros v. unfold trim_stage, must_trim. rewrite Hoff. reflexivity. }
  rewrite !Hid, Hs, Hl. reflexivity.
Qed.

(** C5 (amended): a second normalisation changes nothing when the
    trailing-slash option is off, and also when it is on provided the first
    result ends neither with a slash nor with whitespace.  One call removes
    one slash only, so a URL ending in two slashes needs two calls. *)
Theorem normalize_url_idempotent u :
  normalize_trailing_slash cfg = false
  ∨ (∀ c, last_char (normalize_url cfg u) = Some c →
          c ≠ "/"%char ∧ isspace c = false) →
  normalize_url cfg (normalize_url cfg u) = normalize_url cfg u.
Proof.
  intros [Hoff | Hlast]; [apply normalize_url_idem_no_trim, Hoff|].
  revert Hlast. rewrite !normalize_url_stages.
  destruct (staged_fix u) as (Hs & Hl & Hstart).
  set (s := lower_stage cfg (strip u)) in *.
  unfold trim_stage at 1 3 4. destruct (must_trim cfg s) eqn:Hmt; intros Hlast.
  - (* one slash was removed *)
    assert (Hlen : 1 < String.length s).
    { unfold must_trim in Hmt. apply andb_true_iff in Hmt as [Hmt _].
      apply andb_true_iff in Hmt as [_ Hmt]. apply Nat.ltb_lt, Hmt. }
    assert (Hstrip : strip (drop_last s) = drop_last s).
    { apply strip_fix.
      - rewrite starts_space_drop_last; assumption.
      - unfold ends_space. destruct (last_char (drop_last s)) as [c|] eqn:E;
          [apply (Hlast c eq_refl) | reflexivity]. }
    rewrite Hstrip, lower_stage_drop_last, Hl.
    unfold trim_stage, must_trim.
    destruct (endswith_char (drop_last s) "/") eqn:E.
    + apply endswith_char_spec in E. destruct (Hlast _ E) as [Hne _]. congruence.
    + simpl. rewrite andb_false_r. reflexivity.
  - rewrite Hs, Hl. unfold trim_stage. rewrite Hmt. reflexivity.
Qed.

End Normalize.

(** ** The parser loop *)

Section Parser.
Variable cfg : Config.
Variable exclude_urls : gset string.

Lemma collect_step_candidate st url_elem :
  collect_step cfg exclude_urls st url_elem
  = match candidate cfg url_elem with
    | Some e => if bool_decide (e.1 ∈ exclude_urls) then st
                else keep_step cfg st e
    | None => st
    end.
Proof.
  unfold collect_step, candidate, keep_step.
  destruct (find url_elem (ns_tag "loc")) as [loc_elem|]; [|reflexivity].
  destruct (text loc_elem) as [t|]; [|reflexivity].
  destruct (PyStr.truthy t); reflexivity.
Qed.

Lemma collect_fold_survivors els st :
  fold_left (collect_step cfg exclude_urls) els st
  = fold_left (keep_step cfg)
      (filter (fun e => e.1 ∉ exclude_urls) (omap (candidate cfg) els)) st.
Proof.
  revert st. induction els as [|el els IH]; intros st; [reflexivity|].
  simpl. rewrite collect_step_candidate.
  destruct (candidate cfg el) as [e|]; [|apply IH].
  rewrite filter_cons. case_bool_decide as Hin.
  - rewrite decide_False by tauto. apply IH.
  - rewrite decide_True by assumption. apply IH.
Qed.

Lemma collect_existing_survivors root :
  collect_existing cfg exclude_urls root
  = collected cfg (survivors cfg exclude_urls root).
Proof. apply collect_fold_survivors. Qed.

Lemma survivors_not_excluded root e :
  e ∈ survivors cfg exclude_urls root → e.1 ∉ exclude_urls.
Proof. unfold survivors. rewrite list_elem_of_filter. tauto. Qed.

Lemma collected_snoc l e :
  collected cfg (l ++ [e]) = keep_step cfg (collected cfg l) e.
Proof. unfold collected. rewrite fold_left_app. reflexivity. Qed.

Lemma first_occurrence_nil e : ¬ first_occurrence e [].
Proof. intros (pre & post & H & _). destruct pre; discriminate. Qed.

Lemma first_occurrence_snoc e l x :
  first_occurrence e (l ++ [x])
  ↔ first_occurrence e l ∨ (e = x ∧ x.1 ∉ l.*1).
Proof.
  split.
  - intros (pre & post & Heq & Hn).
    destruct post as [|y post _] using rev_ind.
    + apply (app_inj_tail l pre x e) in Heq as [-> ->]. right. done.
    + rewrite app_comm_cons, app_assoc in Heq.
      apply app_inj_tail in Heq as [-> ->]. left. by exists pre, post.
  - intros [(pre & post & -> & Hn) | [-> Hn]].
    + exists pre, (post ++ [x]). by rewrite <- app_assoc.
    + by exists l, [].
Qed.

Lemma first_occurrence_elem e l : first_occurrence e l → e ∈ l.
Proof. intros (pre & post & -> & _). set_solver. Qed.

(** The loop invariant with [dedupe_existing] on. *)
Lemma collected_dedupe l :
  dedupe_existing cfg = true →
  seen (collected cfg l) = list_to_set l.*1
  ∧ seen (collected cfg l) = list_to_set (existing_urls (collected cfg l)).*1
  ∧ sublist (existing_urls (collected cfg l)) l
  ∧ NoDup (existing_urls (collected cfg l)).*1
  ∧ ∀ e, e ∈ existing_urls (collected cfg l) ↔ first_occurrence e l.
Proof.
  intros Hon. induction l as [|x l IH] using rev_ind.
  - repeat split; try done; simpl.
    + constructor.
    + intros H. by apply elem_of_nil in H.
    + intros H. by apply first_occurrence_nil in H.
  - destruct IH as (Hl & Hex & Hsub & Hnd & Hfirst).
    rewrite collected_snoc. unfold keep_step. rewrite Hon.
    rewrite fmap_app, list_to_set_app_L. simpl.
    case_bool_decide as Hin.
    + assert (x.1 ∈ l.*1) by (rewrite Hl in Hin; set_solver).
      repeat split.
      * rewrite Hl. set_solver.
      * exact Hex.
      * by apply sublist_inserts_r.
      * exact Hnd.
      * intros H'. rewrite first_occurrence_snoc. left. by apply Hfirst.
      * rewrite first_occurrence_snoc. intros [H'|[_ H']]; [by apply Hfirst | done].
    + assert (x.1 ∉ l.*1) by (rewrite Hl in Hin; set_solver).
      simpl. rewrite fmap_app, list_to_set_app_L. simpl.
      repeat split.
      * rewrite Hl. set_solver.
      * rewrite Hex. set_solver.
      * by apply sublist_app.
      * apply NoDup_app. repeat split; [done | | apply NoDup_singleton].
        intros u Hu Hu'. apply list_elem_of_singleton in Hu' as ->.
        apply Hin. rewrite Hex. set_solver.
      * rewrite elem_of_app, list_elem_of_singleton, first_occurrence_snoc.
        intros [H'| ->]; [left; by apply Hfirst | by right].
      * rewrite elem_of_app, list_elem_of_singleton, first_occurrence_snoc.
        intros [H'|[-> _]]; [left; by apply Hfirst | by right].
Qed.

(** With [dedupe_existing] off every survivor is kept and nothing is
    tracked. *)
Lemma collected_no_dedupe l :
  dedupe_existing cfg = false →
  existing_urls (collected cfg l) = l ∧ seen (collected cfg l) = ∅.
Proof.
  intros Hoff. induction l as [|x l [IH1 IH2]] using rev_ind; [done|].
  rewrite collected_snoc. unfold keep_step. rewrite Hoff. simpl.
  by rewrite IH1.
Qed.

(** Whatever the option, what is kept is a subsequence of the survivors and
    what is tracked are locations of survivors. *)
Lemma collected_sublist l : sublist (existing_urls (collected cfg l)) l.
Proof.
  destruct (dedupe_existing cfg) eqn:E.
  - by apply collected_dedupe.
  - by rewrite (proj1 (collected_no_dedupe l E)).
Qed.

Lemma collected_seen l u : u ∈ seen (collected cfg l) → u ∈ l.*1.
Proof.
  destruct (dedupe_existing cfg) eqn:E.
  - destruct (collected_dedupe l E) as (-> & _). set_solver.
  - rewrite (proj2 (collected_no_dedupe l E)). set_solver.
Qed.

End Parser.

(** ** The addition loop *)

Section Reconciler.
Import PyStr PyStrFacts.

Variable add_lastmod_str : string.

Lemma truthy_nonempty u : truthy u = true ↔ nonempty u.
Proof. apply truthy_true. Qed.

(** The loop computes what the specification describes, on the non-empty
    additions. *)
Lemma add_steps_spec (S : gset string) (locs : list string) adds :
  (∀ u, u ∈ S ↔ u ∈ locs) →
  ∀ st acc0, new_seen st = list_to_set acc0 →
  fold_left (add_step S add_lastmod_str) adds st
  = {| final_urls :=
         final_urls st
         ++ (added add_lastmod_str
               <$> (reconcile_spec locs acc0 (filter nonempty adds)).1);
       duplicates :=
         duplicates st ++ (reconcile_spec locs acc0 (filter nonempty adds)).2;
       new_seen :=
         list_to_set
           (acc0 ++ (reconcile_spec locs acc0 (filter nonempty adds)).1) |}.
Proof.
  intros HS. induction adds as [|u adds IH]; intros st acc0 Hseen.
  - destruct st; simpl in *. rewrite !app_nil_r. by subst.
  - simpl fold_left. rewrite filter_cons. unfold add_step at 2.
    destruct (truthy u) eqn:Hu; simpl negb; cbv iota.
    + rewrite decide_True by (by apply truthy_nonempty).
      assert (Htest : bool_decide (u ∈ S) || bool_decide (u ∈ new_seen st)
                      = bool_decide (u ∈ locs ∨ u ∈ acc0)).
      { rewrite Hseen. apply eq_true_iff_eq.
        rewrite orb_true_iff, !bool_decide_eq_true, HS, elem_of_list_to_set.
        tauto. }
      rewrite Htest. simpl reconcile_spec.
      destruct (bool_decide (u ∈ locs ∨ u ∈ acc0)).
      * rewrite (IH _ acc0) by exact Hseen.
        destruct (reconcile_spec locs acc0 (filter nonempty adds)) as [a r].
        simpl. by rewrite <- app_assoc.
      * rewrite (IH _ (acc0 ++ [u])) by (simpl; rewrite Hseen; set_solver).
        destruct (reconcile_spec locs (acc0 ++ [u]) (filter nonempty adds))
          as [a r].
        simpl. by rewrite <- !app_assoc.
    + rewrite decide_False
        by (intros H; apply truthy_nonempty in H; congruence).
      by apply IH.
Qed.

Lemma reconcile_spec_eq existing add_urls :
  reconcile existing add_urls add_lastmod_str
  = {| final_urls :=
         existing
         ++ (added add_lastmod_str
               <$> (reconcile_spec existing.*1 [] (filter nonempty add_urls)).1);
       duplicates :=
         (reconcile_spec existing.*1 [] (filter nonempty add_urls)).2;
       new_seen :=
         list_to_set
           (reconcile_spec existing.*1 [] (filter nonempty add_urls)).1 |}.
Proof.
  unfold reconcile.
  rewrite (add_steps_spec _ existing.*1 add_urls) with (acc0 := []);
    [reflexivity | | reflexivity].
  intros u. apply elem_of_list_to_set.
Qed.

(** What the specification's reconciler guarantees. *)
Lemma reconcile_spec_facts locs adds :
  ∀ acc0 a r, reconcile_spec locs acc0 adds = (a, r) →
  NoDup acc0 →
  NoDup (acc0 ++ a)
  ∧ (∀ u, u ∈ a → u ∉ locs)
  ∧ adds ≡ₚ a ++ r
  ∧ sublist a adds
  ∧ (∀ u, u ∈ adds → u ∉ locs → u ∈ acc0 ++ a).
Proof.
  induction adds as [|u adds IH]; intros acc0 a r Heq Hnd; simpl in Heq.
  - injection Heq as <- <-. rewrite app_nil_r.
    repeat split; try done; intros u Hu; by apply elem_of_nil in Hu.
  - case_bool_decide as Hin.
    + destruct (reconcile_spec locs acc0 adds) as [a' r'] eqn:E.
      injection Heq as <- <-.
      destruct (IH _ _ _ E Hnd) as (H1 & H2 & H3 & H4 & H5).
      repeat split; try done.
      * rewrite H3. apply Permutation_middle.
      * by apply sublist_cons.
      * intros v Hv Hnot. apply elem_of_cons in Hv as [->|Hv]; [|by apply H5].
        destruct Hin as [Hin|Hin]; [done | set_solver].
    + destruct (reconcile_spec locs (acc0 ++ [u]) adds) as [a' r'] eqn:E.
      injection Heq as <- <-.
      assert (Hnd' : NoDup (acc0 ++ [u])).
      { apply NoDup_app. repeat split; [done | | apply NoDup_singleton].
        intros v Hv Hv'. apply list_elem_of_singleton in Hv' as ->. tauto. }
      destruct (IH _ _ _ E Hnd') as (H1 & H2 & H3 & H4 & H5).
      repeat split.
      * by rewrite <- app_assoc in H1.
      * intros v Hv. apply elem_of_cons in Hv as [->|Hv]; [tauto | by apply H2].
      * simpl. by rewrite H3.
      * by apply sublist_skip.
      * intros v Hv Hnot. apply elem_of_cons in Hv as [->|Hv]; [set_solver|].
        specialize (H5 v Hv Hnot). by rewrite <- app_assoc in H5.
Qed.

Lemma filter_all {A} (P : A → Prop) `{∀ x, Decision (P x)} (l : list A) :
  Forall P l → filter P l = l.
Proof.
  induction 1 as [|x l Hx _ IH]; [done|].
  by rewrite filter_cons, decide_True, IH.
Qed.

End Reconciler.

(** ** The whole run *)

Section Run.
Import PyStr PyStrFacts.

Variable cfg : Config.

Lemma clean_lines_nonempty raw : Forall nonempty (clean_lines cfg raw).
Proof.
  unfold clean_lines. destruct (truthy raw); simpl; [|constructor].
  apply Forall_forall. intros u Hu.
  apply list_elem_of_fmap in Hu as (line & -> & Hline).
  apply list_elem_of_filter in Hline as [Hline _].
  apply normalize_url_nonempty. by apply truthy_true.
Qed.

Lemma added_fst d (a : list string) : (added d <$> a).*1 = a.
Proof. induction a as [|u a IH]; [done|]. rewrite !fmap_cons. simpl. by f_equal. Qed.

Lemma existing_sublist (X : gset string) root :
  sublist (existing_urls (collect_existing cfg X root)) (survivors cfg X root).
Proof. rewrite collect_existing_survivors. apply collected_sublist. Qed.

Lemma existing_not_excluded (X : gset string) root e :
  e ∈ existing_urls (collect_existing cfg X root) → e.1 ∉ X.
Proof.
  intros He. apply (survivors_not_excluded cfg X root).
  by apply (sublist_subseteq _ _ (existing_sublist X root)).
Qed.

Lemma existing_candidate (X : gset string) root e :
  e ∈ existing_urls (collect_existing cfg X root) →
  ∃ url_elem, url_elem ∈ findall root (ns_tag "url")
              ∧ candidate cfg url_elem = Some e.
Proof.
  intros He. apply (sublist_subseteq _ _ (existing_sublist X root)) in He.
  unfold survivors in He. apply list_elem_of_filter in He as [_ He].
  by apply list_elem_of_omap in He.
Qed.

(** An entry of the parser output has an empty location only when the [loc]
    of its element holds whitespace and nothing else. *)
Lemma existing_location_empty (X : gset string) root e :
  e ∈ existing_urls (collect_existing cfg X root) →
  e.1 = EmptyString →
  ∃ url_elem loc_elem t,
    url_elem ∈ findall root (ns_tag "url")
    ∧ find url_elem (ns_tag "loc") = Some loc_elem
    ∧ text loc_elem = Some t
    ∧ t ≠ EmptyString ∧ strip t = EmptyString.
Proof.
  intros He Hempty.
  destruct (existing_candidate X root e He) as (url_elem & Hin & Hc).
  unfold candidate in Hc.
  destruct (find url_elem (ns_tag "loc")) as [loc_elem|] eqn:Hfind; [|done].
  destruct (text loc_elem) as [t|] eqn:Htext; [|done].
  destruct (truthy t) eqn:Ht; [|done].
  injection Hc as <-. simpl in Hempty.
  exists url_elem, loc_elem, t. repeat split; try done.
  - by apply truthy_true.
  - destruct (decide (strip t = EmptyString)) as [|Hne]; [done|].
    by apply (normalize_url_nonempty cfg) in Hne.
Qed.

Lemma seen_not_excluded (X : gset string) root u :
  u ∈ seen (collect_existing cfg X root) → u ∉ X.
Proof.
  rewrite collect_existing_survivors. intros Hu.
  apply collected_seen, list_elem_of_fmap in Hu as (e & -> & He).
  by apply (survivors_not_excluded cfg X root).
Qed.

(** The report of rejected additions depends on the existing entries only
    through the set of their locations. *)
Lemma duplicates_by_locations (ex1 ex2 : list Entry) adds d :
  (∀ u, u ∈ ex1.*1 ↔ u ∈ ex2.*1) →
  duplicates (reconcile ex1 adds d) = duplicates (reconcile ex2 adds d).
Proof.
  intros Hsame. unfold reconcile.
  assert (HS : (list_to_set ex1.*1 : gset string) = list_to_set ex2.*1)
    by set_solver.
  rewrite HS. generalize (list_to_set ex2.*1 : gset string). intros S.
  assert (Hgen : ∀ st1 st2,
             duplicates st1 = duplicates st2 → new_seen st1 = new_seen st2 →
             duplicates (fold_left (add_step S d) adds st1)
             = duplicates (fold_left (add_step S d) adds st2)).
  { induction adds as [|u adds IH]; intros st1 st2 Hd Hn; [done|].
    simpl. apply IH; unfold add_step; rewrite Hn;
      destruct (negb (truthy u)); try done;
      destruct (_ || _); simpl; congruence. }
  by apply Hgen.
Qed.

End Run.

(** * The claims *)

Lemma normalize_url_idempotent_witness :
  normalize_url (with_trim default_config)
    (normalize_url (with_trim default_config) " https://ex.com/page/ ")
  = normalize_url (with_trim default_config) " https://ex.com/page/ ".
Proof.
  apply normalize_url_idempotent. right. intros c H.
  vm_compute in H. injection H as <-. split; [discriminate | reflexivity].
Defined.

(** C5 as stated fails: a URL ending in two slashes loses one per call. *)
Lemma normalize_url_not_idempotent :
  normalize_url (with_trim default_config)
    (normalize_url (with_trim default_config) "https://ex.com/page//")
  ≠ normalize_url (with_trim default_config) "https://ex.com/page//".
Proof. vm_compute. discriminate. Qed.

Example normalize_two_slashes :
  normalize_url (with_trim default_config) "https://ex.com/page//"
  = "https://ex.com/page/"
  ∧ normalize_url (with_trim default_config) "https://ex.com/page/"
    = "https://ex.com/page".
Proof. split; reflexivity. Qed.

(** C4: with the trailing-slash option on, the root URL of a site loses its
    slash -- it ends with a slash, holds "://" and counts three slashes, which
    is more than two -- although the comment in the source says the root is to
    be kept; a page URL loses its slash as intended. *)
Theorem normalize_url_root_slash_removed (cfg : Config) :
  normalize_url (with_trim cfg) "https://ex.com/" = "https://ex.com"
  ∧ normalize_url (with_trim cfg) "https://ex.com/page/" = "https://ex.com/page".
Proof. destruct cfg as [? ? ? ? [] ?]; split; reflexivity. Qed.


(** ** C1: distinct locations in the final result *)

(** C1 (amended): with [dedupe_existing] on, no two entries of the final
    result share a location, whatever the uploaded sitemap, the exclusions and
    the additions are. *)
Theorem final_locations_distinct cfg root exclude_input add_input d :
  dedupe_existing cfg = true →
  NoDup (final_urls (pipeline cfg root exclude_input add_input d)).*1.
Proof.
  intros Hon. unfold pipeline. rewrite reconcile_spec_eq. simpl.
  set (X := list_to_set (clean_lines cfg exclude_input) : gset string).
  set (existing := existing_urls (collect_existing cfg X root)).
  destruct (reconcile_spec existing.*1 []
              (filter nonempty (clean_lines cfg add_input))) as [a r] eqn:E.
  destruct (reconcile_spec_facts _ _ _ _ _ E (NoDup_nil_2 (A:=string))) as (Ha & Hout & _).
  simpl in *. rewrite fmap_app, added_fst. apply NoDup_app.
  repeat split; [|by intros u Hu Hu'; apply (Hout u) | done].
  subst existing. rewrite collect_existing_survivors.
  by apply collected_dedupe.
Qed.

Lemma final_locations_distinct_witness :
  NoDup (final_urls (pipeline default_config twice_x "" "https://ex.com/x
https://ex.com/y
https://ex.com/y" "2025-06-01")).*1.
Proof. apply final_locations_distinct. reflexivity. Defined.

(** C1 as stated fails: with [dedupe_existing] off, a location that the
    uploaded sitemap lists twice is in the final result twice. *)
Lemma final_locations_repeat_without_dedupe :
  ¬ NoDup (final_urls (pipeline (without_dedupe default_config) twice_x
                                "" "" "2025-06-01")).*1.
Proof.
  vm_compute. intros H. apply NoDup_cons in H as [H _]. apply H. left.
Qed.

(** ** C2: the reconciler *)

(** The loop on any list of additions: an empty addition is passed over,
    neither accepted nor reported, and on the others the loop does what the
    specification says. *)
Theorem reconcile_meets_spec (existing : list Entry) (add_urls : list string)
    (d : string) :
  final_urls (reconcile existing add_urls d)
  = existing
    ++ (added d <$> (reconcile_spec existing.*1 [] (filter nonempty add_urls)).1)
  ∧ duplicates (reconcile existing add_urls d)
    = (reconcile_spec existing.*1 [] (filter nonempty add_urls)).2.
Proof. rewrite reconcile_spec_eq. split; reflexivity. Qed.

(** The guard of line 167 at work: an empty addition, which [clean_lines]
    never yields, would be passed over. *)
Lemma reconcile_drops_empty_addition :
  final_urls (reconcile [] [""] "2025-06-01")
  ≠ [] ++ (added "2025-06-01" <$> (reconcile_spec [] [] [""]).1).
Proof. vm_compute. discriminate. Qed.



(** The same for the additions of a run, whatever the text typed in. *)
Lemma reconcile_in_a_run cfg (existing : list Entry) (add_input d : string) :
  final_urls (reconcile existing (clean_lines cfg add_input) d)
  = existing
    ++ (added d
          <$> (reconcile_spec existing.*1 [] (clean_lines cfg add_input)).1)
  ∧ duplicates (reconcile existing (clean_lines cfg add_input) d)
    = (reconcile_spec existing.*1 [] (clean_lines cfg add_input)).2.
Proof.
  rewrite reconcile_spec_eq,
    (filter_all nonempty _ (clean_lines_nonempty cfg add_input)).
  split; reflexivity.
Qed.

Example reconcile_sample :
  (let st := reconcile [("https://ex.com/a", Some "2024-01-01")]
               ["https://ex.com/a"; "https://ex.com/c"; "https://ex.com/c"]
               "2025-06-01" in
   (final_urls st, duplicates st))
  = ([("https://ex.com/a", Some "2024-01-01");
      ("https://ex.com/c", Some "2025-06-01")],
     ["https://ex.com/a"; "https://ex.com/c"]).
Proof. reflexivity. Qed.

(** ** C3: exclusion and additions *)

(** C3 (amended): an excluded URL is never among the entries kept from the
    uploaded sitemap; it is in the final result exactly when the addition
    list holds it, and then as an added entry carrying the configured date. *)
Theorem excluded_only_as_addition cfg root exclude_input add_input d u :
  u ∈ clean_lines cfg exclude_input →
  (u ∉ (existing_urls
          (collect_existing cfg (list_to_set (clean_lines cfg exclude_input))
                            root)).*1)
  ∧ (∀ lastmod,
        (u, lastmod) ∈ final_urls (pipeline cfg root exclude_input add_input d)
        ↔ u ∈ clean_lines cfg add_input ∧ lastmod = Some d).
Proof.
  intros Hu. unfold pipeline. rewrite reconcile_spec_eq. simpl.
  set (X := list_to_set (clean_lines cfg exclude_input) : gset string).
  set (existing := existing_urls (collect_existing cfg X root)).
  assert (Hout : u ∉ existing.*1).
  { intros Hin. apply list_elem_of_fmap in Hin as (e & -> & He).
    apply (existing_not_excluded cfg X root e He). subst X. set_solver. }
  split; [exact Hout|]. intros lastmod.
  rewrite (filter_all nonempty _ (clean_lines_nonempty cfg add_input)).
  destruct (reconcile_spec existing.*1 [] (clean_lines cfg add_input))
    as [a r] eqn:E.
  destruct (reconcile_spec_facts _ _ _ _ _ E (NoDup_nil_2 (A:=string)))
    as (_ & _ & Hperm & _ & Hin).
  simpl. rewrite elem_of_app, list_elem_of_fmap. split.
  - intros [He | (v & Hv & Ha)].
    + exfalso. apply Hout. apply list_elem_of_fmap. by exists (u, lastmod).
    + injection Hv as -> ->. split; [|done]. rewrite Hperm. set_solver.
  - intros [Hadd ->]. right. exists u. split; [done|]. by apply Hin.
Qed.

Lemma excluded_only_as_addition_witness :
  ("https://ex.com/b"
   ∉ (existing_urls
        (collect_existing default_config
           (list_to_set (clean_lines default_config "https://ex.com/b"))
           scenario_A)).*1)
  ∧ (∀ lastmod,
        ("https://ex.com/b", lastmod)
        ∈ final_urls (pipeline default_config scenario_A "https://ex.com/b"
                               "https://ex.com/b" "2025-06-01")
        ↔ "https://ex.com/b" ∈ clean_lines default_config "https://ex.com/b"
          ∧ lastmod = Some "2025-06-01").
Proof.
  apply (excluded_only_as_addition default_config scenario_A).
  vm_compute. left.
Defined.

(** C3 as stated fails: a URL of the uploaded sitemap that is excluded and
    also added is in the final result. *)
Lemma excluded_url_comes_back :
  ¬ ("https://ex.com/b"
     ∉ (final_urls (pipeline default_config scenario_A "https://ex.com/b"
                             "https://ex.com/b" "2025-06-01")).*1).
Proof. vm_compute. intros H. apply H. right. left. Qed.

(** ** C6: exclusion before deduplication in the parser *)

(** C6: the dedupe-tracking set never holds an excluded location and no kept
    entry has one; with [dedupe_existing] on, the kept entries are, in
    document order, exactly the first occurrences of each location among the
    survivors of the exclusion, each with the lastmod of that occurrence (with
    the option off every survivor is kept); and the later occurrences leave
    no trace in the duplicate report, which lists additions only and is the
    same as if every survivor had been kept. *)
Theorem parser_excludes_then_dedupes cfg (exclude_urls : gset string) root :
  let st := collect_existing cfg exclude_urls root in
  let alive := survivors cfg exclude_urls root in
  seen st ## exclude_urls
  ∧ Forall (fun e => e.1 ∉ exclude_urls) (existing_urls st)
  ∧ (if dedupe_existing cfg
     then sublist (existing_urls st) alive
          ∧ NoDup (existing_urls st).*1
          ∧ (∀ e, e ∈ existing_urls st ↔ first_occurrence e alive)
     else existing_urls st = alive)
  ∧ (∀ add_urls d,
       duplicates (reconcile (existing_urls st) add_urls d) ⊆ add_urls
       ∧ duplicates (reconcile (existing_urls st) add_urls d)
         = duplicates (reconcile alive add_urls d)).
Proof.
  intros st alive. split; [|split; [|split]].
  - apply elem_of_disjoint. intros u Hs Hx.
    by apply (seen_not_excluded cfg exclude_urls root u).
  - apply Forall_forall. intros e He.
    by apply (existing_not_excluded cfg exclude_urls root).
  - subst st alive. rewrite collect_existing_survivors.
    destruct (dedupe_existing cfg) eqn:E.
    + by destruct (collected_dedupe cfg (survivors cfg exclude_urls root) E)
        as (_ & _ & ? & ? & ?).
    + by apply collected_no_dedupe.
  - intros add_urls d. split.
    + rewrite reconcile_spec_eq. simpl.
      destruct (reconcile_spec (existing_urls st).*1 []
                  (filter nonempty add_urls)) as [a r] eqn:E.
      destruct (reconcile_spec_facts _ _ _ _ _ E (NoDup_nil_2 (A:=string)))
        as (_ & _ & Hperm & _).
      simpl. intros u Hu.
      assert (Hf : u ∈ filter nonempty add_urls) by (rewrite Hperm; set_solver).
      by apply list_elem_of_filter in Hf as [_ ?].
    + apply duplicates_by_locations. subst st alive.
      rewrite collect_existing_survivors.
      destruct (dedupe_existing cfg) eqn:E.
      * destruct (collected_dedupe cfg (survivors cfg exclude_urls root) E)
          as (Hl & Hex & _).
        rewrite Hl in Hex. intros u.
        by rewrite <- !(elem_of_list_to_set (C:=gset string)), Hex.
      * by rewrite (proj1 (collected_no_dedupe cfg _ E)).
Qed.

(** ** C7: lastmod of kept and of added entries *)



(** ** C8: non-empty locations *)

(** C8: a [url] element whose [loc] holds blanks only is not skipped: its
    text is not empty, so it passes the test of line 137, and it normalises to
    the empty string, which becomes the location of an entry of the parser
    output and of the final result. *)
Theorem blank_loc_gives_empty_location (cfg : Config) :
  existing_urls (collect_existing cfg ∅ blank_loc) = [(EmptyString, None)]
  ∧ final_urls (pipeline cfg blank_loc "" "" "2025-06-01")
    = [(EmptyString, None)].
Proof. destruct cfg as [? ? ? [] [] []]; split; reflexivity. Qed.

(** ** C9: failures *)



(** ** C10: accounting of the additions *)

(** C10: no cleaned addition is empty; the loop leaves the existing entries
    in front, and the cleaned additions are, up to order, the accepted ones
    together with the duplicates, so that each went to exactly one of the two
    lists, once; hence the count of the final result. *)
Theorem additions_accounting cfg raw (existing : list Entry) d :
  let add_urls := clean_lines cfg raw in
  let st := reconcile existing add_urls d in
  Forall nonempty add_urls
  ∧ take (length existing) (final_urls st) = existing
  ∧ add_urls ≡ₚ (drop (length existing) (final_urls st)).*1 ++ duplicates st
  ∧ length (final_urls st)
    = length existing + length add_urls - length (duplicates st).
Proof.
  intros add_urls st. pose proof (clean_lines_nonempty cfg raw) as Hne.
  split; [exact Hne|]. subst st. rewrite reconcile_spec_eq. simpl.
  rewrite (filter_all nonempty _ Hne). fold add_urls.
  destruct (reconcile_spec existing.*1 [] add_urls) as [a r] eqn:E.
  destruct (reconcile_spec_facts _ _ _ _ _ E (NoDup_nil_2 (A:=string)))
    as (_ & _ & Hperm & _).
  simpl. rewrite take_app_length, drop_app_length, added_fst.
  repeat split; [done|].
  rewrite length_app, length_fmap.
  apply Permutation_length in Hperm. rewrite length_app in Hperm. lia.
Qed.

(** ** The scenarios of the specification *)

Example scenario_A_result :
  let st := pipeline default_config scenario_A "https://ex.com/b"
              "https://ex.com/a
https://ex.com/c" "2025-06-01" in
  final_urls st = [("https://ex.com/a", Some "2024-01-01");
                   ("https://ex.com/c", Some "2025-06-01")]
  ∧ duplicates st = ["https://ex.com/a"].
Proof. split; reflexivity. Qed.

Example scenario_B_result :
  final_urls (pipeline default_config twice_x "" "" "2025-06-01")
  = [("https://ex.com/x", Some "2024-01-01")].
Proof. reflexivity. Qed.

Example scenario_C_result :
  let st := pipeline default_config (urlset []) "" "https://ex.com/y
https://ex.com/y" "2025-06-01" in
  final_urls st = [("https://ex.com/y", Some "2025-06-01")]
  ∧ duplicates st = ["https://ex.com/y"].
Proof. split; reflexivity. Qed.

(** * Further properties *)

(** ** More on the string primitives *)

Module PyStrMore.
Import PyStr PyStrFacts.

Lemma lstrip_lower s : lstrip (lower s) = lower (lstrip s).
Proof.
  induction s as [|c r IH]; [reflexivity|]. simpl.
  rewrite isspace_lower_char. by destruct (isspace c).
Qed.

Lemma rstrip_lower s : rstrip (lower s) = lower (rstrip s).
Proof.
  induction s as [|c r IH]; [reflexivity|]. simpl. rewrite IH.
  destruct (rstrip r); simpl; [|reflexivity].
  rewrite isspace_lower_char. by destruct (isspace c).
Qed.

Lemma strip_lower s : strip (lower s) = lower (strip s).
Proof. unfold strip. by rewrite lstrip_lower, rstrip_lower. Qed.

Lemma lower_app s t : lower (s +:+ t) = lower s +:+ lower t.
Proof.
  induction s as [|c s IH]; [reflexivity|].
  rewrite str_app_cons. simpl. by rewrite IH.
Qed.

Lemma eqb_lower_slash c : Ascii.eqb (lower_char c) "/" = Ascii.eqb c "/".
Proof. each_char c. Qed.

Lemma eqb_lower_colon c : Ascii.eqb (lower_char c) ":" = Ascii.eqb c ":".
Proof. each_char c. Qed.

Lemma count_slash_lower s : count_char "/" (lower s) = count_char "/" s.
Proof.
  induction s as [|c r IH]; [reflexivity|]. simpl.
  by rewrite eqb_lower_slash, IH.
Qed.

Lemma endswith_slash_lower s :
  endswith_char (lower s) "/" = endswith_char s "/".
Proof.
  unfold endswith_char. rewrite last_char_lower.
  destruct (last_char s); simpl; [apply eqb_lower_slash | reflexivity].
Qed.

(** [String.prefix] one character at a time, with a boolean test. *)
Lemma prefix_cons d sub c r :
  String.prefix (String d sub) (String c r)
  = Ascii.eqb c d && String.prefix sub r.
Proof.
  simpl. destruct (ascii_dec d c) as [->|Hne].
  - by rewrite Ascii.eqb_refl.
  - destruct (Ascii.eqb c d) eqn:E; [|reflexivity].
    apply Ascii.eqb_eq in E. congruence.
Qed.

Lemma prefix_nil s : String.prefix EmptyString s = true.
Proof. by destruct s. Qed.

Lemma prefix_scheme_lower s :
  String.prefix "://" (lower s) = String.prefix "://" s.
Proof.
  destruct s as [|a [|b [|c r]]]; try reflexivity;
    cbn [lower]; rewrite !prefix_cons, ?prefix_nil;
    rewrite ?eqb_lower_colon, ?eqb_lower_slash; reflexivity.
Qed.

Lemma contains_scheme_lower s : contains "://" (lower s) = contains "://" s.
Proof.
  induction s as [|c r IH]; [reflexivity|].
  rewrite (contains_unfold _ (lower (String c r))), (contains_unfold _ (String c r)).
  rewrite prefix_scheme_lower. cbn [lower]. by rewrite IH.
Qed.

Lemma prefix_contains sub s : String.prefix sub s = true → contains sub s = true.
Proof. intros H. rewrite contains_unfold, H. reflexivity. Qed.

Lemma contains_cons sub c r : contains sub r = true → contains sub (String c r) = true.
Proof. intros H. rewrite contains_unfold, H. apply orb_true_r. Qed.

Lemma contains_lstrip sub s :
  contains sub (lstrip s) = true → contains sub s = true.
Proof.
  induction s as [|c r IH]; [done|]. simpl.
  destruct (isspace c); [|done]. intros H. by apply contains_cons, IH.
Qed.

Lemma prefix_rstrip s : ∀ sub,
  String.prefix sub (rstrip s) = true → String.prefix sub s = true.
Proof.
  induction s as [|c r IH]; intros sub; [done|].
  destruct sub as [|d sub]; [done|]. simpl rstrip.
  destruct (rstrip r) as [|e r'] eqn:E.
  - destruct (isspace c); [done|].
    rewrite !prefix_cons. intros H. apply andb_true_iff in H as [-> H].
    destruct sub; [by rewrite prefix_nil | done].
  - rewrite !prefix_cons. intros H. apply andb_true_iff in H as [-> H].
    by rewrite (IH _ H).
Qed.

Lemma contains_rstrip sub s :
  contains sub (rstrip s) = true → contains sub s = true.
Proof.
  induction s as [|c r IH]; [done|]. intros H.
  rewrite contains_unfold in H. apply orb_true_iff in H as [H|H].
  - by apply prefix_contains, prefix_rstrip.
  - apply contains_cons. simpl in H.
    destruct (rstrip r) as [|e r'] eqn:E.
    + destruct (isspace c); [done|].
      rewrite contains_unfold in H. rewrite orb_false_r in H.
      destruct sub; [|done]. apply prefix_contains, prefix_nil.
    + by apply IH.
Qed.

Lemma contains_strip sub s :
  contains sub (strip s) = true → contains sub s = true.
Proof. intros H. by apply contains_lstrip, contains_rstrip. Qed.

Lemma lstrip_length s : String.length (lstrip s) ≤ String.length s.
Proof.
  induction s as [|c r IH]; [done|]. simpl. destruct (isspace c); simpl; lia.
Qed.

Lemma rstrip_length s : String.length (rstrip s) ≤ String.length s.
Proof.
  induction s as [|c r IH]; [done|]. simpl.
  destruct (rstrip r); [destruct (isspace c)|]; simpl in *; lia.
Qed.

Lemma strip_length s : String.length (strip s) ≤ String.length s.
Proof.
  unfold strip. pose proof (rstrip_length (lstrip s)).
  pose proof (lstrip_length s). lia.
Qed.

Lemma drop_last_length s :
  String.length (drop_last s) = String.length s - 1.
Proof.
  induction s as [|c [|d r] IH]; try reflexivity.
  change (drop_last (String c (String d r)))
    with (String c (drop_last (String d r))).
  cbn [String.length] in *. rewrite IH. lia.
Qed.

End PyStrMore.

(** ** More on [normalize_url] *)

Section NormalizeMore.
Import PyStr PyStrFacts PyStrMore.

Variable cfg : Config.

Lemma must_trim_lower s : must_trim cfg (lower s) = must_trim cfg s.
Proof.
  unfold must_trim.
  by rewrite lower_length, endswith_slash_lower, contains_scheme_lower,
    count_slash_lower.
Qed.

Lemma trim_stage_lower s : trim_stage cfg (lower s) = lower (trim_stage cfg s).
Proof.
  unfold trim_stage. rewrite must_trim_lower.
  destruct (must_trim cfg s); [apply drop_last_lower | reflexivity].
Qed.

Lemma must_trim_with_lowercase b s :
  must_trim (with_lowercase b cfg) s = must_trim cfg s.
Proof. reflexivity. Qed.

Lemma trim_stage_length s :
  String.length s - 1 ≤ String.length (trim_stage cfg s)
  ∧ String.length (trim_stage cfg s) ≤ String.length s.
Proof.
  unfold trim_stage. destruct (must_trim cfg s); [|lia].
  rewrite drop_last_length. lia.
Qed.

Lemma lower_stage_length s :
  String.length (lower_stage cfg s) = String.length s.
Proof. unfold lower_stage. destruct (lower_case_urls cfg); [apply lower_length | done]. Qed.

Lemma lower_stage_contains s :
  contains "://" (lower_stage cfg s) = contains "://" s.
Proof.
  unfold lower_stage. destruct (lower_case_urls cfg);
    [apply contains_scheme_lower | done].
Qed.

Lemma lower_stage_app s t :
  lower_stage cfg (s +:+ t) = lower_stage cfg s +:+ lower_stage cfg t.
Proof. unfold lower_stage. destruct (lower_case_urls cfg); [apply lower_app | done]. Qed.

(** X1: a string normalises to the empty string exactly when it holds
    nothing but whitespace. *)
Theorem normalize_url_empty_iff u :
  normalize_url cfg u = EmptyString ↔ strip u = EmptyString.
Proof.
  split.
  - intros H. destruct (decide (strip u = EmptyString)) as [|Hne]; [done|].
    by apply (normalize_url_nonempty cfg) in Hne.
  - apply normalize_url_blank.
Qed.

(** X2: with the lowercase option off, normalisation never lengthens a
    string, and besides the whitespace at the ends it removes one character
    at most.  (Lowercasing is left out on purpose: beyond the code points
    modelled here [str.lower] can lengthen a string.) *)
Theorem normalize_url_length u :
  lower_case_urls cfg = false →
  String.length (strip u) - 1 ≤ String.length (normalize_url cfg u)
  ∧ String.length (normalize_url cfg u) ≤ String.length (strip u)
  ∧ String.length (strip u) ≤ String.length u.
Proof.
  intros Hoff. rewrite normalize_url_stages.
  assert (Hsame : lower_stage cfg (strip u) = strip u)
    by (unfold lower_stage; by rewrite Hoff).
  rewrite Hsame.
  pose proof (trim_stage_length (strip u)) as [H1 H2].
  pose proof (strip_length u). lia.
Qed.

(** X3: the lowercase option does nothing but lowercase: the result with the
    option on is the lowercased result with the option off. *)
Theorem normalize_url_lowercase_commutes u :
  normalize_url (with_lowercase true cfg) u
  = lower (normalize_url (with_lowercase false cfg) u).
Proof.
  rewrite !normalize_url_stages. unfold lower_stage. simpl lower_case_urls.
  unfold trim_stage. rewrite !must_trim_with_lowercase, must_trim_lower.
  destruct (must_trim cfg (strip u)); [apply drop_last_lower | reflexivity].
Qed.

(** X4: with the lowercase option on, two strings that differ in case only
    normalise to the same URL. *)
Theorem normalize_url_case_insensitive u v :
  lower u = lower v →
  normalize_url (with_lowercase true cfg) u
  = normalize_url (with_lowercase true cfg) v.
Proof.
  intros H. rewrite !normalize_url_stages. unfold lower_stage.
  simpl lower_case_urls. by rewrite <- !strip_lower, H.
Qed.

(** X5: a string without "://" never loses its slash, whatever the options:
    it is only stripped and, if asked, lowercased. *)
Theorem normalize_url_relative_keeps_slash u :
  contains "://" u = false →
  normalize_url cfg u = lower_stage cfg (strip u).
Proof.
  intros H. rewrite normalize_url_stages. unfold trim_stage, must_trim.
  rewrite lower_stage_contains.
  destruct (contains "://" (strip u)) eqn:E.
  - apply contains_strip in E. congruence.
  - by rewrite andb_false_r, andb_false_r.
Qed.

(** X6: with the trailing-slash option on, every root URL -- a scheme that
    starts with no whitespace, "://", a host, one slash -- loses its slash. *)
Theorem normalize_url_root scheme host :
  normalize_trailing_slash cfg = true →
  starts_space scheme = false →
  normalize_url cfg ((scheme +:+ "://" +:+ host) +:+ "/")
  = lower_stage cfg (scheme +:+ "://" +:+ host).
Proof.
  intros Hon Hstart. rewrite normalize_url_stages.
  assert (Hstrip : strip ((scheme +:+ "://" +:+ host) +:+ "/")
                   = (scheme +:+ "://" +:+ host) +:+ "/").
  { apply strip_fix.
    - destruct scheme; [reflexivity | exact Hstart].
    - unfold ends_space. by rewrite last_char_snoc. }
  rewrite Hstrip, !lower_stage_app.
  replace (lower_stage cfg "://") with "://"
    by (unfold lower_stage; by destruct (lower_case_urls cfg)).
  replace (lower_stage cfg "/") with "/"
    by (unfold lower_stage; by destruct (lower_case_urls cfg)).
  by apply trim_stage_root.
Qed.

End NormalizeMore.

Lemma normalize_url_length_witness :
  String.length (PyStr.strip "  https://ex.com/page/ ") - 1
  ≤ String.length (normalize_url (with_trim default_config)
                                 "  https://ex.com/page/ ")
  ∧ String.length (normalize_url (with_trim default_config)
                                 "  https://ex.com/page/ ")
    ≤ String.length (PyStr.strip "  https://ex.com/page/ ")
  ∧ String.length (PyStr.strip "  https://ex.com/page/ ")
    ≤ String.length "  https://ex.com/page/ ".
Proof. apply normalize_url_length. reflexivity. Defined.

Lemma normalize_url_case_insensitive_witness :
  normalize_url (with_lowercase true default_config) "HTTPS://Ex.com/Page"
  = normalize_url (with_lowercase true default_config) "https://EX.com/page".
Proof. apply normalize_url_case_insensitive. reflexivity. Defined.

Lemma normalize_url_relative_keeps_slash_witness :
  normalize_url (with_trim default_config) " /page/ "
  = lower_stage (with_trim default_config) (PyStr.strip " /page/ ").
Proof. apply normalize_url_relative_keeps_slash. reflexivity. Defined.

Lemma normalize_url_root_witness :
  normalize_url (with_trim default_config)
    (("https" +:+ "://" +:+ "example.com") +:+ "/")
  = lower_stage (with_trim default_config) ("https" +:+ "://" +:+ "example.com").
Proof. apply normalize_url_root; reflexivity. Defined.

Example relative_path_keeps_slash :
  normalize_url (with_trim default_config) " /page/ " = "/page/".
Proof. reflexivity. Qed.

(** ** More on [clean_lines] *)

Section CleanLines.
Import PyStr PyStrFacts PyStrMore.

Lemma rstrip_cons c r :
  rstrip (String c r)
  = match rstrip r with
    | EmptyString => if isspace c then EmptyString else String c EmptyString
    | r' => String c r'
    end.
Proof. reflexivity. Qed.

Lemma lstrip_cons c r :
  lstrip (String c r) = if isspace c then lstrip r else String c r.
Proof. reflexivity. Qed.

Lemma split_lines_cons c r :
  split_lines (String c r)
  = if Ascii.eqb c "010" then EmptyString :: split_lines r
    else match split_lines r with
         | [] => [String c EmptyString]
         | l :: ls => String c l :: ls
         end.
Proof. reflexivity. Qed.

Lemma split_lines_inv s : ∃ l ls, split_lines s = l :: ls.
Proof.
  induction s as [|c r (l & ls & IH)]; [by eexists _, _|].
  rewrite split_lines_cons, IH. destruct (Ascii.eqb c "010"); by eexists _, _.
Qed.

Lemma nonspace_not_newline c : isspace c = false → Ascii.eqb c "010" = false.
Proof.
  intros H. destruct (Ascii.eqb c "010") eqn:E; [|done].
  apply Ascii.eqb_eq in E as ->. done.
Qed.

(** Stripping on the left and on the right commute. *)
Lemma lstrip_rstrip s : lstrip (rstrip s) = rstrip (lstrip s).
Proof.
  induction s as [|c r IH]; [done|].
  destruct (isspace c) eqn:Ec.
  - rewrite rstrip_cons, (lstrip_cons c r), Ec, <- IH.
    destruct (rstrip r) as [|a r']; [done|]. by rewrite lstrip_cons, Ec.
  - rewrite (lstrip_fix (String c r)) by exact Ec.
    apply lstrip_fix, rstrip_keeps_start, Ec.
Qed.

Lemma strip_alt s : strip s = lstrip (rstrip s).
Proof. unfold strip. by rewrite lstrip_rstrip. Qed.

(** Cutting the whitespace at the end of a text cuts the end of its last
    line that is not blank and leaves blank lines out. *)
Lemma rstrip_lines s :
  ∃ k, rstrip <$> split_lines s
       = (rstrip <$> split_lines (rstrip s)) ++ replicate k EmptyString.
Proof.
  induction s as [|c r [k IH]]; [by exists 0|].
  rewrite split_lines_cons, rstrip_cons.
  destruct (Ascii.eqb c "010") eqn:Enl.
  - apply Ascii.eqb_eq in Enl as ->. rewrite fmap_cons, IH.
    destruct (rstrip r) as [|a r'] eqn:E.
    + exists (S k). reflexivity.
    + exists k. rewrite split_lines_cons. reflexivity.
  - destruct (split_lines_inv r) as (l & ls & Er). rewrite Er in IH |- *.
    rewrite fmap_cons in IH |- *.
    destruct (rstrip r) as [|a r'] eqn:E.
    + simpl in IH. injection IH as Hl Hls. exists k.
      rewrite rstrip_cons, Hl, Hls.
      destruct (isspace c) eqn:Ec; [reflexivity|].
      rewrite split_lines_cons, Enl. simpl. by rewrite Ec.
    + destruct (split_lines_inv (String a r')) as (l' & ls' & Er').
      rewrite split_lines_cons, Enl, Er'. rewrite Er' in IH.
      rewrite fmap_cons in IH |- *. simpl in IH. injection IH as Hl Hls.
      exists k. rewrite (rstrip_cons c l), (rstrip_cons c l'), Hl, Hls.
      reflexivity.
Qed.

Lemma lstrip_lines s :
  ∃ k, lstrip <$> split_lines s
       = replicate k EmptyString ++ (lstrip <$> split_lines (lstrip s)).
Proof.
  induction s as [|c r [k IH]]; [by exists 0|].
  simpl lstrip. destruct (isspace c) eqn:Ec; [|by exists 0].
  rewrite split_lines_cons. destruct (Ascii.eqb c "010").
  - exists (S k). rewrite fmap_cons, IH. reflexivity.
  - destruct (split_lines_inv r) as (l & ls & Er). rewrite Er in IH |- *.
    exists k. rewrite <- IH, !fmap_cons. simpl. by rewrite Ec.
Qed.

Lemma filter_fmap {A B} (f : A → B) (P : B → Prop) `{∀ y, Decision (P y)}
    (l : list A) :
  filter P (f <$> l) = f <$> filter (fun x => P (f x)) l.
Proof.
  induction l as [|x l IH]; [done|].
  rewrite fmap_cons, !filter_cons. destruct (decide (P (f x))); by rewrite IH.
Qed.

Lemma filter_nonempty_blank (f : string → string) k :
  f EmptyString = EmptyString →
  filter nonempty (f <$> replicate k EmptyString) = [].
Proof.
  intros Hf. induction k as [|k IH]; [done|].
  simpl. rewrite filter_cons, Hf, decide_False; [exact IH | by intros []].
Qed.

Lemma stripped_lines_rstrip s : stripped_lines (rstrip s) = stripped_lines s.
Proof.
  unfold stripped_lines.
  rewrite !(list_fmap_ext strip (lstrip ∘ rstrip)) by (intros; apply strip_alt).
  rewrite !list_fmap_compose.
  destruct (rstrip_lines s) as [k ->].
  by rewrite fmap_app, filter_app, filter_nonempty_blank, app_nil_r.
Qed.

Lemma stripped_lines_lstrip s : stripped_lines (lstrip s) = stripped_lines s.
Proof.
  unfold stripped_lines.
  rewrite !(list_fmap_compose lstrip rstrip : ∀ l, strip <$> l = _).
  destruct (lstrip_lines s) as [k ->].
  by rewrite fmap_app, filter_app, filter_nonempty_blank.
Qed.

(** The strip of the whole text, before it is split, changes nothing. *)
Lemma stripped_lines_strip s : stripped_lines (strip s) = stripped_lines s.
Proof. unfold strip. by rewrite stripped_lines_rstrip, stripped_lines_lstrip. Qed.

Variable cfg : Config.

(** [clean_lines] in terms of the stripped lines of the text as it is. *)
Lemma clean_lines_stripped raw :
  clean_lines cfg raw
  = (fun s => trim_stage cfg (lower_stage cfg s)) <$> stripped_lines raw.
Proof.
  unfold clean_lines. destruct raw as [|c r]; [reflexivity|].
  cbn [truthy negb]. rewrite <- stripped_lines_strip.
  unfold stripped_lines. rewrite filter_fmap, <- list_fmap_compose.
  rewrite (list_filter_iff _ (fun x => nonempty (strip x)))
    by (intros; apply truthy_true).
  apply list_fmap_ext. intros _ line _. apply normalize_url_stages.
Qed.

Lemma stripped_lines_nil raw :
  stripped_lines raw = [] ↔ strip raw = EmptyString.
Proof.
  split.
  - intros H. rewrite <- stripped_lines_strip in H.
    destruct (strip raw) as [|c r] eqn:E; [done|]. exfalso.
    assert (Ec : isspace c = false).
    { destruct (strip_clean raw) as [Hs _]. by rewrite E in Hs. }
    unfold stripped_lines in H.
    destruct (split_lines_inv r) as (l & ls & Er).
    rewrite split_lines_cons, (nonspace_not_newline c Ec), Er in H.
    rewrite fmap_cons, filter_cons in H.
    assert (Hne : nonempty (strip (String c l))).
    { unfold strip. rewrite lstrip_cons, Ec, rstrip_cons.
      destruct (rstrip l); [by rewrite Ec | done]. }
    by rewrite decide_True in H.
  - intros H. by rewrite <- stripped_lines_strip, H.
Qed.

Lemma split_lines_app a b :
  split_lines (a +:+ String "010" b) = split_lines a ++ split_lines b.
Proof.
  induction a as [|c a IH]; [reflexivity|].
  rewrite str_app_cons, !split_lines_cons, IH.
  destruct (Ascii.eqb c "010"); [reflexivity|].
  by destruct (split_lines_inv a) as (l & ls & ->).
Qed.

(** X7: the cleaned list is empty exactly when the text holds nothing but
    whitespace (blank lines, or no text at all). *)
Theorem clean_lines_nil_iff raw :
  clean_lines cfg raw = [] ↔ strip raw = EmptyString.
Proof.
  rewrite clean_lines_stripped, <- stripped_lines_nil.
  split; [apply fmap_nil_inv | by intros ->].
Qed.

(** X8: cleaning two texts put one under the other gives the cleaned lines
    of the first followed by those of the second; whitespace and blank lines
    around either text are of no account. *)
Theorem clean_lines_app a b :
  clean_lines cfg (a +:+ String "010" b)
  = clean_lines cfg a ++ clean_lines cfg b.
Proof.
  rewrite !clean_lines_stripped. unfold stripped_lines.
  by rewrite split_lines_app, fmap_app, filter_app, fmap_app.
Qed.

End CleanLines.

(** ** More on the parser loop *)

Section ParserMore.

Variable cfg : Config.

(** Entries with distinct locations all go through. *)
Lemma collected_distinct l :
  NoDup l.*1 → existing_urls (collected cfg l) = l.
Proof.
  induction l as [|x l IH] using rev_ind; [done|].
  rewrite fmap_app. intros Hnd. apply NoDup_app in Hnd as (Hl & Hx & _).
  rewrite collected_snoc. unfold keep_step.
  assert (Hout : x.1 ∉ seen (collected cfg l)).
  { intros Hin. apply collected_seen in Hin. apply (Hx _ Hin). simpl. left. }
  rewrite (bool_decide_eq_false_2 _ Hout).
  destruct (dedupe_existing cfg); simpl; by rewrite IH.
Qed.

(** A filter on locations may be applied before the loop or after it. *)
Lemma collected_filter (P : string → Prop) `{∀ u, Decision (P u)} l :
  existing_urls (collected cfg (filter (fun e => P e.1) l))
  = filter (fun e => P e.1) (existing_urls (collected cfg l)).
Proof.
  destruct (dedupe_existing cfg) eqn:Hd.
  2:{ by rewrite !(proj1 (collected_no_dedupe cfg _ Hd)). }
  induction l as [|x l IH] using rev_ind; [done|]. unfold Entry in *.
  rewrite filter_app, (collected_snoc cfg l). unfold keep_step.
  rewrite Hd. rewrite filter_cons, filter_nil.
  destruct (collected_dedupe cfg l Hd) as (Hl & _).
  destruct (collected_dedupe cfg (filter (fun e => P e.1) l) Hd) as (Hf & _).
  destruct (decide (P x.1)) as [HP|HP].
  - rewrite collected_snoc. unfold keep_step. rewrite Hd.
    assert (Hsame : x.1 ∈ seen (collected cfg (filter (fun e => P e.1) l))
                    ↔ x.1 ∈ seen (collected cfg l)).
    { rewrite Hf, Hl, !elem_of_list_to_set, !list_elem_of_fmap.
      split; intros (e & He1 & He2); exists e; split; try done.
      - by apply list_elem_of_filter in He2 as [_ ?].
      - apply list_elem_of_filter. split; [by rewrite <- He1 | done]. }
    case_bool_decide as H1; case_bool_decide as H2;
      [exact IH | tauto | tauto |].
    cbn [existing_urls].
    by rewrite IH, filter_app, filter_cons, decide_True by done.
  - rewrite app_nil_r, IH. case_bool_decide; [done|].
    cbn [existing_urls].
    rewrite filter_app, filter_cons, decide_False by done.
    symmetry. apply app_nil_r.
Qed.

Lemma survivors_filter (X : gset string) root :
  survivors cfg X root = filter (fun e => e.1 ∉ X) (survivors cfg ∅ root).
Proof.
  unfold survivors. f_equal. symmetry. apply filter_all.
  apply Forall_forall. intros e _. set_solver.
Qed.

(** X9: when the surviving entries of the upload have distinct locations,
    all of them are kept, in document order, whether [dedupe_existing] is on
    or off. *)
Theorem distinct_locations_all_kept (X : gset string) root :
  NoDup (survivors cfg X root).*1 →
  existing_urls (collect_existing cfg X root) = survivors cfg X root.
Proof. rewrite collect_existing_survivors. apply collected_distinct. Qed.

(** X10: excluding before the dedupe, as the loop does, gives the same
    entries as running the loop without exclusions and dropping the excluded
    locations from its result. *)
Theorem exclusion_commutes_with_dedupe (X : gset string) root :
  existing_urls (collect_existing cfg X root)
  = filter (fun e => e.1 ∉ X) (existing_urls (collect_existing cfg ∅ root)).
Proof.
  rewrite !collect_existing_survivors, survivors_filter.
  exact (collected_filter (fun u => u ∉ X) (survivors cfg ∅ root)).
Qed.

(** X11: only children of the root tagged with the sitemap namespace count:
    when there is none, nothing is read from the upload and the final result
    is the distinct additions, each with the configured date. *)
Theorem no_namespaced_url_only_additions root exclude_input add_input d :
  (∀ c, c ∈ children root → tag c ≠ ns_tag "url") →
  let st := pipeline cfg root exclude_input add_input d in
  existing_urls
    (collect_existing cfg (list_to_set (clean_lines cfg exclude_input)) root)
  = []
  ∧ Forall (fun e => e.2 = Some d) (final_urls st)
  ∧ NoDup (final_urls st).*1
  ∧ (∀ u, u ∈ (final_urls st).*1 ↔ u ∈ clean_lines cfg add_input).
Proof.
  intros Hnone st.
  assert (Hfind : findall root (ns_tag "url") = []).
  { apply elem_of_nil_inv. intros c Hc. unfold findall in Hc.
    apply list_elem_of_filter in Hc as [Htag Hc]. by apply (Hnone c). }
  assert (Hex : ∀ X, existing_urls (collect_existing cfg X root) = []).
  { intros X. unfold collect_existing. by rewrite Hfind. }
  split; [apply Hex|]. subst st. unfold pipeline.
  rewrite Hex, reconcile_spec_eq. simpl.
  rewrite (filter_all nonempty _ (clean_lines_nonempty cfg add_input)).
  destruct (reconcile_spec [] [] (clean_lines cfg add_input)) as [a r] eqn:E.
  destruct (reconcile_spec_facts _ _ _ _ _ E (NoDup_nil_2 (A:=string)))
    as (Hnd & _ & Hperm & Hsub & Hin).
  simpl in *. rewrite added_fst. repeat split; try done.
  - apply Forall_forall. intros e He.
    by apply list_elem_of_fmap in He as (u & -> & _).
  - intros Hu. by apply (sublist_subseteq _ _ Hsub).
  - intros Hu. apply Hin; [done | by intros ?%elem_of_nil].
Qed.

End ParserMore.

Lemma distinct_locations_all_kept_witness :
  existing_urls (collect_existing (without_dedupe default_config) ∅ scenario_A)
  = survivors (without_dedupe default_config) ∅ scenario_A.
Proof.
  apply distinct_locations_all_kept. vm_compute.
  apply NoDup_cons. split; [|apply NoDup_singleton].
  intros H. apply list_elem_of_singleton in H. discriminate.
Defined.

Lemma no_namespaced_url_only_additions_witness :
  let st := pipeline default_config plain_sitemap "" "https://ex.com/b" "2025-06-01" in
  existing_urls
    (collect_existing default_config
       (list_to_set (clean_lines default_config "")) plain_sitemap)
  = []
  ∧ Forall (fun e => e.2 = Some "2025-06-01") (final_urls st)
  ∧ NoDup (final_urls st).*1
  ∧ (∀ u, u ∈ (final_urls st).*1
          ↔ u ∈ clean_lines default_config "https://ex.com/b").
Proof.
  apply (no_namespaced_url_only_additions default_config plain_sitemap).
  intros c Hc. vm_compute in Hc. apply list_elem_of_singleton in Hc as ->.
  vm_compute. discriminate.
Defined.

(** ** More on the addition loop *)

Section ReconcilerMore.
Import PyStr PyStrFacts.

Lemma occurrences_app u l k :
  occurrences u (l ++ k) = occurrences u l + occurrences u k.
Proof. unfold occurrences. by rewrite filter_app, length_app. Qed.

Lemma occurrences_cons u v l :
  occurrences u (v :: l)
  = (if decide (v = u) then 1 else 0) + occurrences u l.
Proof. unfold occurrences. rewrite filter_cons. by destruct (decide (v = u)). Qed.

Lemma occurrences_none u l : u ∉ l → occurrences u l = 0.
Proof.
  induction l as [|v l IH]; [done|]. intros Hu.
  rewrite occurrences_cons, decide_False, IH; set_solver.
Qed.

Lemma occurrences_NoDup u l :
  NoDup l → occurrences u l = if decide (u ∈ l) then 1 else 0.
Proof.
  induction 1 as [|v l Hv Hnd IH]; [done|].
  rewrite occurrences_cons. destruct (decide (v = u)) as [->|Hne].
  - rewrite (occurrences_none u l Hv), decide_True; [done | by left].
  - rewrite IH. destruct (decide (u ∈ l)).
    + rewrite decide_True; [done | by right].
    + rewrite decide_False; [done | set_solver].
Qed.

Lemma occurrences_nonempty u l :
  nonempty u → occurrences u (filter nonempty l) = occurrences u l.
Proof.
  intros Hu. induction l as [|v l IH]; [done|].
  rewrite filter_cons. destruct (decide (nonempty v)) as [Hv|Hv].
  - by rewrite !occurrences_cons, IH.
  - rewrite occurrences_cons, IH, decide_False; [done|]. by intros ->.
Qed.

(** Which additions the loop accepts. *)
Lemma accepted_iff (existing : list Entry) add_urls a r u :
  reconcile_spec existing.*1 [] (filter nonempty add_urls) = (a, r) →
  u ∈ a ↔ u ∈ add_urls ∧ nonempty u ∧ u ∉ existing.*1.
Proof.
  intros E.
  destruct (reconcile_spec_facts _ _ _ _ _ E (NoDup_nil_2 (A:=string)))
    as (_ & Hout & _ & Hsub & Hin).
  split.
  - intros Hu. apply (sublist_subseteq _ _ Hsub) in Hu as Hf.
    apply list_elem_of_filter in Hf as [? ?]. split; [done|]. split; [done|].
    by apply Hout.
  - intros (Hadd & Hne & Hnot). apply Hin; [|done].
    by apply list_elem_of_filter.
Qed.

(** When every addition is an existing location already, nothing is
    appended and each non-empty addition is reported. *)
Lemma add_steps_all_known (S : gset string) d adds st :
  (∀ u, u ∈ adds → nonempty u → u ∈ S) →
  fold_left (add_step S d) adds st
  = {| final_urls := final_urls st;
       duplicates := duplicates st ++ filter nonempty adds;
       new_seen := new_seen st |}.
Proof.
  revert st. induction adds as [|u adds IH]; intros st Hknown.
  - destruct st. simpl. by rewrite app_nil_r.
  - simpl fold_left. rewrite IH by (intros; apply Hknown; [by right | done]).
    rewrite filter_cons. unfold add_step.
    destruct (truthy u) eqn:Hu; simpl.
    + rewrite decide_True by (by apply truthy_true).
      rewrite bool_decide_eq_true_2
        by (apply Hknown; [by left | by apply truthy_true]).
      simpl. by rewrite <- app_assoc.
    + rewrite decide_False; [done|]. intros H. apply truthy_true in H. congruence.
Qed.

Lemma final_locations_known (existing : list Entry) add_urls d u :
  u ∈ add_urls → nonempty u →
  u ∈ (final_urls (reconcile existing add_urls d)).*1.
Proof.
  intros Hadd Hne. rewrite reconcile_spec_eq. simpl.
  destruct (reconcile_spec existing.*1 [] (filter nonempty add_urls))
    as [a r] eqn:E.
  simpl. rewrite fmap_app, added_fst, elem_of_app, (accepted_iff _ _ _ _ u E).
  destruct (decide (u ∈ existing.*1)); tauto.
Qed.

(** X12: the locations of the final result are the existing locations and
    the non-empty additions, nothing else and nothing less. *)
Theorem final_locations_are_existing_and_added (existing : list Entry)
    (add_urls : list string) (d u : string) :
  u ∈ (final_urls (reconcile existing add_urls d)).*1
  ↔ u ∈ existing.*1 ∨ (u ∈ add_urls ∧ u ≠ EmptyString).
Proof.
  rewrite reconcile_spec_eq. simpl.
  destruct (reconcile_spec existing.*1 [] (filter nonempty add_urls))
    as [a r] eqn:E.
  simpl. rewrite fmap_app, added_fst, elem_of_app, (accepted_iff _ _ _ _ u E).
  unfold nonempty. destruct (decide (u ∈ existing.*1)); tauto.
Qed.

(** X13: a non-empty URL is reported once for each of its lines among the
    additions when it exists already, and once for each line but the first
    when it does not. *)
Theorem duplicates_multiplicity (existing : list Entry)
    (add_urls : list string) (d u : string) :
  u ≠ EmptyString →
  occurrences u (duplicates (reconcile existing add_urls d))
  = if decide (u ∈ existing.*1) then occurrences u add_urls
    else occurrences u add_urls - 1.
Proof.
  intros Hu. rewrite reconcile_spec_eq. simpl.
  destruct (reconcile_spec existing.*1 [] (filter nonempty add_urls))
    as [a r] eqn:E.
  destruct (reconcile_spec_facts _ _ _ _ _ E (NoDup_nil_2 (A:=string)))
    as (Hnd & _ & Hperm & _).
  simpl in *.
  assert (Hsum : occurrences u add_urls = occurrences u a + occurrences u r).
  { rewrite <- (occurrences_nonempty u add_urls Hu), <- occurrences_app.
    unfold occurrences. by rewrite Hperm. }
  rewrite (occurrences_NoDup u a Hnd) in Hsum.
  pose proof (accepted_iff _ _ _ _ u E) as Hacc.
  destruct (decide (u ∈ existing.*1)) as [Hex|Hex].
  - rewrite decide_False in Hsum by tauto. lia.
  - destruct (decide (u ∈ a)) as [Ha|Ha]; [lia|].
    assert (u ∉ add_urls) by (unfold nonempty in Hacc; tauto).
    rewrite (occurrences_none u add_urls) in Hsum |- * by done. lia.
Qed.

(** X14: running the loop again on its own result with the same additions
    (and any date) appends nothing and reports every non-empty addition. *)
Theorem reconcile_again (existing : list Entry) (add_urls : list string)
    (d d' : string) :
  let st := reconcile existing add_urls d in
  final_urls (reconcile (final_urls st) add_urls d') = final_urls st
  ∧ duplicates (reconcile (final_urls st) add_urls d')
    = filter nonempty add_urls.
Proof.
  intros st. unfold reconcile.
  rewrite !add_steps_all_known
    by (intros u Hu Hne; apply elem_of_list_to_set;
        by apply final_locations_known).
  done.
Qed.

End ReconcilerMore.

Lemma duplicates_multiplicity_witness :
  occurrences "https://ex.com/y"
    (duplicates (reconcile [] ["https://ex.com/y"; "https://ex.com/y";
                               "https://ex.com/y"] "2025-06-01"))
  = if decide ("https://ex.com/y" ∈ ([] : list Entry).*1)
    then occurrences "https://ex.com/y"
           ["https://ex.com/y"; "https://ex.com/y"; "https://ex.com/y"]
    else occurrences "https://ex.com/y"
           ["https://ex.com/y"; "https://ex.com/y"; "https://ex.com/y"] - 1.
Proof. apply duplicates_multiplicity. discriminate. Defined.

(** ** The new sitemap, the duplicate table and the page *)

Section Output.

Variable cfg : Config.

Lemma read_url_element (e : Entry) :
  read_url (url_element cfg e) = (Some e.1, written_lastmod e).
Proof.
  destruct e as [loc [d|]]; [|reflexivity].
  unfold read_url, written_lastmod, url_element. simpl.
  by destruct (PyStr.truthy d).
Qed.

Lemma url_element_tag (e : Entry) : tag (url_element cfg e) = "url".
Proof. by destruct e. Qed.

Lemma url_element_defaults (e : Entry) :
  find (url_element cfg e) "changefreq" ≫= text
  = Some (changefreq_text (changefreq cfg))
  ∧ find (url_element cfg e) "priority" ≫= text = Some (priority_text cfg).
Proof.
  destruct e as [loc [d|]]; [|done].
  unfold url_element. simpl. by destruct (PyStr.truthy d).
Qed.

Lemma findall_new_root final :
  findall (new_root cfg final) "url" = url_element cfg <$> final.
Proof.
  unfold findall, new_root. simpl. apply filter_all, Forall_forall.
  intros el Hel. apply list_elem_of_fmap in Hel as (e & -> & _).
  apply url_element_tag.
Qed.

(** X15: the new tree has one [url] element for each final entry, in order;
    reading it back gives the location, the lastmod unless it is missing or
    empty, and for every element the configured changefreq and priority. *)
Theorem new_root_read_back (final : list Entry) :
  read_url <$> findall (new_root cfg final) "url"
  = (fun e => (Some e.1, written_lastmod e)) <$> final
  ∧ Forall (fun el =>
              find el "changefreq" ≫= text
              = Some (changefreq_text (changefreq cfg))
              ∧ find el "priority" ≫= text = Some (priority_text cfg))
           (findall (new_root cfg final) "url").
Proof.
  rewrite findall_new_root. split.
  - rewrite <- list_fmap_compose. apply list_fmap_ext.
    intros _ e _. apply read_url_element.
  - apply Forall_forall. intros el Hel.
    apply list_elem_of_fmap in Hel as (e & -> & _). apply url_element_defaults.
Qed.

(** X16: the table of duplicates lists every rejected URL once, in ascending
    order, so it is never longer than the count of the warning. *)
Theorem duplicate_table_sorted_distinct (dups : list string) :
  StronglySorted String.le (duplicate_table dups)
  ∧ NoDup (duplicate_table dups)
  ∧ (∀ u, u ∈ duplicate_table dups ↔ u ∈ dups)
  ∧ length (duplicate_table dups) ≤ length dups.
Proof.
  unfold duplicate_table.
  set (X := list_to_set dups : gset string).
  assert (Hperm : merge_sort String.le (elements X) ≡ₚ elements X)
    by apply merge_sort_Permutation.
  assert (Hmem : ∀ u, u ∈ merge_sort String.le (elements X) ↔ u ∈ dups).
  { intros u. rewrite Hperm, elem_of_elements. subst X.
    apply elem_of_list_to_set. }
  assert (Hnd : NoDup (merge_sort String.le (elements X))).
  { rewrite Hperm. apply NoDup_elements. }
  repeat split; try done.
  - apply (StronglySorted_merge_sort _).
  - by apply Hmem.
  - by apply Hmem.
  - apply submseteq_length, NoDup_submseteq; [done|]. intros u. apply Hmem.
Qed.

(** X17: when the upload parses, the total on the page is the number of
    [url] elements of the document offered, which is written in the
    configured encoding; the warning about duplicates is on the page exactly
    when some addition was rejected, with the number of rejected lines. *)
Theorem generate_success root exclude_text add_text d :
  let st := pipeline cfg root exclude_text add_text d in
  let events := generate cfg (parsed_inputs root exclude_text add_text d) in
  (∀ n, StTotal n ∈ events ↔ n = length (final_urls st))
  ∧ (∀ enc document,
       StDownload enc document ∈ events ↔
       enc = encoding cfg ∧ document = new_root cfg (final_urls st))
  ∧ length (findall (new_root cfg (final_urls st)) "url")
    = length (final_urls st)
  ∧ (∀ n, StWarningDuplicates n ∈ events ↔
          n = length (duplicates st) ∧ 0 < n).
Proof.
  intros st events. subst events. unfold generate, parsed_inputs, report.
  cbn [uploaded_file exclude_input add_input add_lastmod_str]. fold st.
  assert (Hwarn : ∀ ev,
            ev ∈ match duplicates st with
                 | [] => []
                 | _ :: _ => [StWarningDuplicates (length (duplicates st))]
                 end
            ↔ ev = StWarningDuplicates (length (duplicates st))
              ∧ 0 < length (duplicates st)).
  { intros ev. destruct (duplicates st) as [|u r].
    - split; [by intros ?%elem_of_nil | simpl; lia].
    - rewrite list_elem_of_singleton. simpl. split; [|tauto].
      intros ->. split; [done | lia]. }
  repeat split.
  - rewrite !elem_of_app, Hwarn, !elem_of_cons, !elem_of_nil.
    intros [H|[H|H]]; [| |]; naive_solver.
  - intros ->. rewrite !elem_of_app, !elem_of_cons. tauto.
  - rewrite !elem_of_app, Hwarn, !elem_of_cons, !elem_of_nil in H.
    naive_solver.
  - rewrite !elem_of_app, Hwarn, !elem_of_cons, !elem_of_nil in H.
    naive_solver.
  - intros [-> ->]. rewrite !elem_of_app, !elem_of_cons. tauto.
  - by rewrite findall_new_root, length_fmap.
  - rewrite !elem_of_app, Hwarn, !elem_of_cons, !elem_of_nil in H.
    naive_solver.
  - rewrite !elem_of_app, Hwarn, !elem_of_cons, !elem_of_nil in H.
    naive_solver.
  - intros [-> Hpos]. rewrite !elem_of_app, Hwarn. right. left. done.
Qed.

End Output.

Example duplicate_table_example :
  duplicate_table ["https://ex.com/b"; "https://ex.com/a"; "https://ex.com/b"]
  = ["https://ex.com/a"; "https://ex.com/b"].
Proof. vm_compute. reflexivity. Qed.

(** ** The run as a whole *)

Section RunMore.

Variable cfg : Config.

(** X18: the date picked for the additions has no say in what is accepted
    or rejected: two runs that differ in the date only have the same existing
    entries in front, the same locations and the same duplicates. *)
Theorem date_only_dates (existing : list Entry) (add_urls : list string)
    (d d' : string) :
  (final_urls (reconcile existing add_urls d)).*1
  = (final_urls (reconcile existing add_urls d')).*1
  ∧ take (length existing) (final_urls (reconcile existing add_urls d))
    = take (length existing) (final_urls (reconcile existing add_urls d'))
  ∧ duplicates (reconcile existing add_urls d)
    = duplicates (reconcile existing add_urls d').
Proof.
  rewrite !reconcile_spec_eq. simpl.
  by rewrite !fmap_app, !added_fst, !take_app_length.
Qed.

(** X19: the exclusions act as a set: two exclude texts with the same
    cleaned lines, in whatever order and however often, give the same run. *)
Theorem exclusions_as_set root exclude1 exclude2 add_text d :
  (∀ u, u ∈ clean_lines cfg exclude1 ↔ u ∈ clean_lines cfg exclude2) →
  pipeline cfg root exclude1 add_text d = pipeline cfg root exclude2 add_text d.
Proof.
  intros Hsame. unfold pipeline.
  assert (E : (list_to_set (clean_lines cfg exclude1) : gset string)
              = list_to_set (clean_lines cfg exclude2)).
  { apply set_eq. intros u. by rewrite !elem_of_list_to_set. }
  by rewrite E.
Qed.

(** X20: an addition never touches an entry of the upload: whatever the
    final result holds for an existing location is an existing entry, with
    the lastmod it had. *)
Theorem existing_lastmod_not_replaced (existing : list Entry)
    (add_urls : list string) (d : string) (e : Entry) :
  e.1 ∈ existing.*1 →
  e ∈ final_urls (reconcile existing add_urls d) →
  e ∈ existing.
Proof.
  intros Hloc. rewrite reconcile_spec_eq. simpl.
  destruct (reconcile_spec existing.*1 [] (filter nonempty add_urls))
    as [a r] eqn:E.
  destruct (reconcile_spec_facts _ _ _ _ _ E (NoDup_nil_2 (A:=string)))
    as (_ & Hout & _).
  simpl. rewrite elem_of_app. intros [He|He]; [done|].
  apply list_elem_of_fmap in He as (u & -> & Hu). by apply Hout in Hu.
Qed.

End RunMore.

Lemma exclusions_as_set_witness :
  pipeline default_config scenario_A "https://ex.com/a
https://ex.com/b" "" "2025-06-01"
  = pipeline default_config scenario_A "https://ex.com/b
https://ex.com/a
https://ex.com/b" "" "2025-06-01".
Proof.
  apply exclusions_as_set. intros u.
  assert (E1 : clean_lines default_config "https://ex.com/a
https://ex.com/b" = ["https://ex.com/a"; "https://ex.com/b"]) by reflexivity.
  assert (E2 : clean_lines default_config "https://ex.com/b
https://ex.com/a
https://ex.com/b"
               = ["https://ex.com/b"; "https://ex.com/a"; "https://ex.com/b"])
    by reflexivity.
  rewrite E1, E2, !elem_of_cons, !elem_of_nil. tauto.
Defined.

Lemma existing_lastmod_not_replaced_witness :
  ("https://ex.com/a", Some "2024-01-01")
  ∈ [("https://ex.com/a", Some "2024-01-01")].
Proof.
  apply (existing_lastmod_not_replaced
           [("https://ex.com/a", Some "2024-01-01")]
           ["https://ex.com/a"; "https://ex.com/c"] "2025-06-01").
  - vm_compute. left.
  - vm_compute. left.
Defined.
